(** * mesg-go [service.go]: the service client of mesg-core

    A shallow embedding of [service.go] and the properties of its
    construction ([New]), its listening loop ([Listen], [listenTasks],
    [executeTask]) and its graceful shutdown ([Close]).

    The sequential part ([New], [setupServiceClient], [getTaskableByName])
    is embedded as functions.  The concurrent part is embedded as a
    transition system: every goroutine is a program counter over the
    statements of the function it runs, the fields of [Service] are the
    shared store, and one [step] runs one statement of one goroutine.  The
    scheduler and the outside world (the gRPC server, the network, the
    client program that calls [Listen] and [Close]) are the [Action]s. *)

From Stdlib Require Import ZArith Lia Ascii.
From stdpp Require Import base option list strings.

Open Scope Z_scope.

(** ** Errors *)

(** Go's [error] values.  The four error values declared in [service.go],
    and [errExternal] for any error made elsewhere (gRPC, [context],
    [encoding/json]), identified by its message.  A nil [error] is [None]
    of [option error]. *)
Inductive error : Type :=
| errEndpointNotSet
| errTokenNotSet
| errAlreadyListening
| errNonExistentTask (name : string)
| errExternal (msg : string).

(** [%q] of [fmt] for a name that needs no escaping: the name between
    double quotes. *)
Definition quoted (name : string) : string :=
  String "034"%char (name +:+ String "034"%char EmptyString).

(** [Error()] of the errors declared in the file. *)
Definition Error (e : error) : string :=
  match e with
  | errEndpointNotSet => "endpoint is not set"
  | errTokenNotSet => "token is not set"
  | errAlreadyListening => "already listening for tasks"
  | errNonExistentTask name => "task " +:+ quoted name +:+ " does not exists"
  | errExternal msg => msg
  end.

(** [context.Canceled], the value of [ctx.Err()] after [cancel()]. *)
Definition contextCanceled : error := errExternal "context canceled".

(** What [stream.Recv()] returns once the context of the stream has been
    cancelled (a gRPC status error, not [context.Canceled] itself). *)
Definition rpcCanceled : error :=
  errExternal "rpc error: code = Canceled desc = context canceled".

(** [grpc.ErrClientConnClosing], returned by [ClientConn.Close] on a
    connection that has been closed before. *)
Definition ErrClientConnClosing : error :=
  errExternal "grpc: the client connection is closing".

(** ** Data *)

(** [serviceapi.TaskData], one message of the task stream. *)
Record TaskData : Type := mkTaskData {
  ExecutionID : string;
  TaskKey : string;
  InputData : string
}.

(** What a call of [Taskable.Execute] does: it returns an output key and
    output data, or it panics. *)
Inductive HandlerResult : Type :=
| HReturn (outputKey : string) (data : string)
| HPanic.

(** The [Taskable] interface: [Key()] and [Execute(execution)]. *)
Record Taskable : Type := mkTaskable {
  Key : string;
  Execute : TaskData -> HandlerResult
}.

(** [grpc.DialOption]s the file builds. *)
Inductive DialOpt : Type :=
| WithKeepaliveParams (time : Z)
| WithInsecure
| WithContextDialer (dialer : string).

(** [*grpc.ClientConn]: the target it was dialled for and how many times
    [Close] has been called on it. *)
Record ClientConn : Type := mkClientConn {
  target : string;
  closeCalls : nat
}.

(** [context.CancelFunc] of the one context [listenTasks] creates. *)
Inductive CancelFunc : Type := CancelStream.

(** [type Service struct].  The two mutexes are [true] when held, the
    [WaitGroup] is its counter, a nil pointer or func is [None].  The
    logger [log] writes to [logOutput]; what it prints is recorded in the
    trace of the world below. *)
Record Service : Type := mkService {
  endpoint : string;
  token : string;
  client : option ClientConn;
  conn : option ClientConn;
  dialOptions : list DialOpt;
  callTimeout : Z;
  cancel : option CancelFunc;
  closing : bool;
  mc : bool;
  isListening : bool;
  ml : bool;
  gracefulWait : Z;
  taskables : list Taskable;
  logOutput : string
}.

Definition set_endpoint (v : string) (s : Service) : Service :=
  mkService v (token s) (client s) (conn s) (dialOptions s) (callTimeout s)
    (cancel s) (closing s) (mc s) (isListening s) (ml s) (gracefulWait s)
    (taskables s) (logOutput s).
Definition set_token (v : string) (s : Service) : Service :=
  mkService (endpoint s) v (client s) (conn s) (dialOptions s) (callTimeout s)
    (cancel s) (closing s) (mc s) (isListening s) (ml s) (gracefulWait s)
    (taskables s) (logOutput s).
Definition set_client (v : option ClientConn) (s : Service) : Service :=
  mkService (endpoint s) (token s) v (conn s) (dialOptions s) (callTimeout s)
    (cancel s) (closing s) (mc s) (isListening s) (ml s) (gracefulWait s)
    (taskables s) (logOutput s).
Definition set_conn (v : option ClientConn) (s : Service) : Service :=
  mkService (endpoint s) (token s) (client s) v (dialOptions s) (callTimeout s)
    (cancel s) (closing s) (mc s) (isListening s) (ml s) (gracefulWait s)
    (taskables s) (logOutput s).
Definition set_dialOptions (v : list DialOpt) (s : Service) : Service :=
  mkService (endpoint s) (token s) (client s) (conn s) v (callTimeout s)
    (cancel s) (closing s) (mc s) (isListening s) (ml s) (gracefulWait s)
    (taskables s) (logOutput s).
Definition set_callTimeout (v : Z) (s : Service) : Service :=
  mkService (endpoint s) (token s) (client s) (conn s) (dialOptions s) v
    (cancel s) (closing s) (mc s) (isListening s) (ml s) (gracefulWait s)
    (taskables s) (logOutput s).
Definition set_cancel (v : option CancelFunc) (s : Service) : Service :=
  mkService (endpoint s) (token s) (client s) (conn s) (dialOptions s)
    (callTimeout s) v (closing s) (mc s) (isListening s) (ml s)
    (gracefulWait s) (taskables s) (logOutput s).
Definition set_closing (v : bool) (s : Service) : Service :=
  mkService (endpoint s) (token s) (client s) (conn s) (dialOptions s)
    (callTimeout s) (cancel s) v (mc s) (isListening s) (ml s)
    (gracefulWait s) (taskables s) (logOutput s).
Definition set_mc (v : bool) (s : Service) : Service :=
  mkService (endpoint s) (token s) (client s) (conn s) (dialOptions s)
    (callTimeout s) (cancel s) (closing s) v (isListening s) (ml s)
    (gracefulWait s) (taskables s) (logOutput s).
Definition set_isListening (v : bool) (s : Service) : Service :=
  mkService (endpoint s) (token s) (client s) (conn s) (dialOptions s)
    (callTimeout s) (cancel s) (closing s) (mc s) v (ml s)
    (gracefulWait s) (taskables s) (logOutput s).
Definition set_ml (v : bool) (s : Service) : Service :=
  mkService (endpoint s) (token s) (client s) (conn s) (dialOptions s)
    (callTimeout s) (cancel s) (closing s) (mc s) (isListening s) v
    (gracefulWait s) (taskables s) (logOutput s).
Definition set_gracefulWait (v : Z) (s : Service) : Service :=
  mkService (endpoint s) (token s) (client s) (conn s) (dialOptions s)
    (callTimeout s) (cancel s) (closing s) (mc s) (isListening s) (ml s)
    v (taskables s) (logOutput s).
Definition set_taskables (v : list Taskable) (s : Service) : Service :=
  mkService (endpoint s) (token s) (client s) (conn s) (dialOptions s)
    (callTimeout s) (cancel s) (closing s) (mc s) (isListening s) (ml s)
    (gracefulWait s) v (logOutput s).
Definition set_logOutput (v : string) (s : Service) : Service :=
  mkService (endpoint s) (token s) (client s) (conn s) (dialOptions s)
    (callTimeout s) (cancel s) (closing s) (mc s) (isListening s) (ml s)
    (gracefulWait s) (taskables s) v.

(** ** Construction: [New] and [setupServiceClient] *)

Definition endpointEnv : string := "MESG_ENDPOINT".
Definition tokenEnv : string := "MESG_TOKEN".

(** Durations in nanoseconds, as [time.Duration]. *)
Definition Second : Z := 1000000000.
Definition Minute : Z := 60 * Second.

(** [type Option]: a function on the service; the five options of the
    file, each applied by [applyOption]. *)
Inductive Option : Type :=
| EndpointOption (address : string)
| TokenOption (tok : string)
| TimeoutOption (d : Z)
| LogOutputOption (out : string)
| DialOption (dialer : string).

Definition applyOption (o : Option) (s : Service) : Service :=
  match o with
  | EndpointOption address => set_endpoint address s
  | TokenOption tok => set_token tok s
  | TimeoutOption d => set_callTimeout d s
  | LogOutputOption out => set_logOutput out s
  | DialOption dialer =>
      set_dialOptions (dialOptions s ++ [WithContextDialer dialer]) s
  end.

(** One call of [grpc.DialContext]: the timeout of its context, the target
    and the dial options. *)
Record DialCall : Type := mkDialCall {
  dialTimeout : Z;
  dialTarget : string;
  dialOpts : list DialOpt
}.

Section Construction.

(** [os.Getenv]. *)
Variable Getenv : string -> string.

(** [grpc.DialContext]: nil, or the error of the dial. *)
Variable DialContext : DialCall -> option error.

(** Lines 86-96 of [New]: the defaults, then every option in order. *)
Definition configure (options : list Option) : Service :=
  let s := {| endpoint := Getenv endpointEnv;
              token := Getenv tokenEnv;
              client := None;
              conn := None;
              dialOptions := [WithKeepaliveParams (5 * Minute); WithInsecure];
              callTimeout := Second * 10;
              cancel := None;
              closing := false;
              mc := false;
              isListening := false;
              ml := false;
              gracefulWait := 0;
              taskables := [];
              logOutput := "ioutil.Discard" |} in
  fold_left (fun s o => applyOption o s) options s.

(** [setupServiceClient]: the service after the call, the error
    returned, and the dial calls made.  A dial that succeeds gives a new
    connection, on which [Close] was never called. *)
Definition setupServiceClient (s : Service)
  : Service * option error * list DialCall :=
  let call := mkDialCall (callTimeout s) (endpoint s) (dialOptions s) in
  match DialContext call with
  | Some err => (set_conn None s, Some err, [call])
  | None =>
      let c := mkClientConn (endpoint s) O in
      (set_client (Some c) (set_conn (Some c) s), None, [call])
  end.

(** [New]: the service pointer and the error it returns, and the dial
    calls made on the way. *)
Definition New (options : list Option)
  : option Service * option error * list DialCall :=
  let s := configure options in
  if String.eqb (endpoint s) "" then (None, Some errEndpointNotSet, [])
  else if String.eqb (token s) "" then (None, Some errTokenNotSet, [])
  else
    let '(s', err, calls) := setupServiceClient s in
    (Some s', err, calls).

End Construction.

(** ** The running service: goroutines, the outside world, the trace *)

(** [getTaskableByName]: the first taskable with the key, or nil. *)
Fixpoint getTaskableByName (l : list Taskable) (key : string)
  : option Taskable :=
  match l with
  | [] => None
  | taskable :: rest =>
      if String.eqb (Key taskable) key then Some taskable
      else getTaskableByName rest key
  end.

(** [validateTasks]: always nil. *)
Definition validateTasks (s : Service) : option error := None.

(** The [return] statement a call of [Listen] left by: line 166 (already
    listening), line 173 (validation), line 191 (the stream did not open)
    or line 216 (the value received from [errC]). *)
Inductive RetSite : Type := AtGate | AtValidate | AtOpen | AtErrC.

(** Program counter of [listenTasks], named by the statement to run next. *)
Inductive ListenTasksPc : Type :=
| TLockMc          (* 184  s.mc.Lock() *)
| TWithCancel      (* 185  ctx, s.cancel = context.WithCancel(...) *)
| TUnlockMc        (* 186  s.mc.Unlock() *)
| TListenTask      (* 187  stream, err := s.client.ListenTask(ctx, ...) *)
| TGoWatch         (* 194-198  errC := make(chan error); go func() {...}() *)
| TGoRecv          (* 200-215  go func() { for {...} }() *)
| TRecvErrC.       (* 216  return <-errC *)

(** Program counter of [Listen]; the arguments of the call travel with it
    until they are stored. *)
Inductive ListenPc : Type :=
| LLock (task : Taskable) (tasks : list Taskable)         (* 163 *)
| LIfListening (task : Taskable) (tasks : list Taskable)  (* 164 *)
| LUnlockErr                                              (* 165-166 *)
| LSetListening (task : Taskable) (tasks : list Taskable) (* 168 *)
| LUnlock (task : Taskable) (tasks : list Taskable)       (* 169 *)
| LSetTaskables (task : Taskable) (tasks : list Taskable) (* 170-171 *)
| LValidate                                               (* 172 *)
| LListenTasks (pc : ListenTasksPc)                       (* 175 *)
| LReturned (site : RetSite) (r : option error).

(** Program counter of the first goroutine of [listenTasks] (lines
    195-198), which waits for the context of the stream. *)
Inductive WatchPc : Type :=
| WDone            (* 196  <-stream.Context().Done() *)
| WSend            (* 197  errC <- stream.Context().Err() *)
| WExit.

(** Program counter of the second goroutine of [listenTasks] (lines
    200-215), the receive loop. *)
Inductive RecvPc : Type :=
| RAdd                         (* 202  s.gracefulWait.Add(1) *)
| RRecv                        (* 203  data, err := stream.Recv() *)
| RDone (err : error)          (* 205  s.gracefulWait.Done() *)
| RIfClosing (err : error)     (* 206  if s.closing *)
| RSend (v : option error)     (* 207, 210  errC <- nil, errC <- err *)
| RGo (data : TaskData)        (* 213  go s.executeTask(data) *)
| RExit.                       (* 208, 211  return *)

(** Program counter of [executeTask]. *)
Inductive ExecPc : Type :=
| EStart (data : TaskData)                       (* 230 *)
| ELogMissing (data : TaskData)                  (* 232-233 *)
| EExecute (data : TaskData) (taskable : Taskable)  (* 235-236 Execute *)
| EReply (data : TaskData) (outputKey out : string) (* 236 reply *)
| ELogErr (data : TaskData) (err : error)        (* 237 *)
| EDone (data : TaskData) (panicking : bool)     (* 229 deferred Done *)
| EFinished (data : TaskData)
| EPanicked (data : TaskData).

(** Program counter of [Close]. *)
Inductive ClosePc : Type :=
| CLock                      (* 260  s.mc.Lock() *)
| CSetClosing                (* 262  s.closing = true *)
| CCancel                    (* 263  s.cancel() *)
| CWait                      (* 264  s.gracefulWait.Wait() *)
| CConnClose                 (* 265  s.conn.Close() *)
| CUnlock (r : option error) (* 261  deferred s.mc.Unlock(), then return *)
| CUnlockPanic               (* 261  deferred s.mc.Unlock() of a panic *)
| CReturned (r : option error)
| CPanicked.

(** A goroutine. *)
Inductive Thread : Type :=
| TListen (pc : ListenPc)
| TWatch (pc : WatchPc)
| TRecv (pc : RecvPc)
| TExec (pc : ExecPc)
| TClose (pc : ClosePc).

(** What the outside world answers to a call that leaves the process. *)
Inductive Ext : Type :=
| ExtOk
| ExtErr (msg : string).

(** What the service does that can be seen from outside or that the
    properties below count.  The trace of a world lists the events, the
    most recent first. *)
Inductive Event : Type :=
| EvAdd                                   (* 202  gracefulWait.Add(1) *)
| EvDoneRecv                              (* 205  gracefulWait.Done() *)
| EvDoneExec (data : TaskData)            (* 229  deferred Done() *)
| EvGo (data : TaskData)                  (* 213  go s.executeTask(data) *)
| EvLog (e : error)                       (* 232, 237  s.log.Println *)
| EvReply (data : TaskData) (outputKey out : string) (* reply delivered *)
| EvErrC (v : option error)               (* 216  value received *)
| EvCancel                                (* 263  s.cancel() called *)
| EvConnClose (r : option error).         (* 265  s.conn.Close() called *)

(** The state of the process and of what it talks to: the service, the
    context made at line 185 ([ctxDone] once it is cancelled), the task
    stream (the messages that arrived and were not received yet, and the
    error it ended with), the goroutines, the trace, and whether the
    process died of a panic in a goroutine. *)
Record World : Type := mkWorld {
  svc : Service;
  ctxDone : bool;
  inbox : list TaskData;
  streamErr : option error;
  threads : list Thread;
  trace : list Event;
  crashed : bool
}.

Definition with_svc (f : Service -> Service) (w : World) : World :=
  mkWorld (f (svc w)) (ctxDone w) (inbox w) (streamErr w) (threads w)
    (trace w) (crashed w).
Definition set_ctxDone (v : bool) (w : World) : World :=
  mkWorld (svc w) v (inbox w) (streamErr w) (threads w) (trace w) (crashed w).
Definition set_inbox (v : list TaskData) (w : World) : World :=
  mkWorld (svc w) (ctxDone w) v (streamErr w) (threads w) (trace w)
    (crashed w).
Definition set_streamErr (v : option error) (w : World) : World :=
  mkWorld (svc w) (ctxDone w) (inbox w) v (threads w) (trace w) (crashed w).
Definition set_threads (v : list Thread) (w : World) : World :=
  mkWorld (svc w) (ctxDone w) (inbox w) (streamErr w) v (trace w) (crashed w).
Definition set_crashed (v : bool) (w : World) : World :=
  mkWorld (svc w) (ctxDone w) (inbox w) (streamErr w) (threads w) (trace w) v.

(** Record an event. *)
Definition emit (e : Event) (w : World) : World :=
  mkWorld (svc w) (ctxDone w) (inbox w) (streamErr w) (threads w)
    (e :: trace w) (crashed w).

(** Goroutine [i] moves on to [t]. *)
Definition goto (i : nat) (t : Thread) (w : World) : World :=
  set_threads (<[i:=t]> (threads w)) w.

(** [go f()]: a new goroutine. *)
Definition spawn (t : Thread) (w : World) : World :=
  set_threads (threads w ++ [t]) w.

(** The world of a service right after [New] returned it. *)
Definition boot (s : Service) : World :=
  {| svc := s; ctxDone := false; inbox := []; streamErr := None;
     threads := []; trace := []; crashed := false |}.

(** ** The primitives the goroutines use *)

(** [stream.Context().Done()] is closed: the context of the stream is
    derived from the context of line 185, and gRPC cancels it when the
    stream ends. *)
Definition streamCtxDone (w : World) : bool :=
  ctxDone w || bool_decide (is_Some (streamErr w)).

(** The error [stream.Recv()] has to report, if any: the error the stream
    ended with, or the cancellation of its context. *)
Definition recvErr (w : World) : option error :=
  match streamErr w with
  | Some e => Some e
  | None => if ctxDone w then Some rpcCanceled else None
  end.

(** The goroutine parked at line 216, receiving from [errC]. *)
Fixpoint receiver (l : list Thread) : option nat :=
  match l with
  | [] => None
  | TListen (LListenTasks TRecvErrC) :: _ => Some 0%nat
  | _ :: rest => S <$> receiver rest
  end.

(** [errC <- v] by goroutine [i], which goes on as [t].  The channel is
    unbuffered: the send happens only with a receiver parked at line 216,
    which then returns [v]. *)
Definition sendErrC (i : nat) (t : Thread) (v : option error) (w : World)
  : option World :=
  match receiver (threads w) with
  | Some k =>
      Some (emit (EvErrC v)
              (goto k (TListen (LReturned AtErrC v)) (goto i t w)))
  | None => None
  end.

(** [s.gracefulWait.Add(delta)]. *)
Definition wgAdd (delta : Z) (s : Service) : Service :=
  set_gracefulWait (gracefulWait s + delta) s.

(** [ClientConn.Close()]: the first call tears the connection down and
    returns what the teardown gives ([x]), a later call returns
    [ErrClientConnClosing]. *)
Definition connClose (c : ClientConn) (x : Ext) : ClientConn * option error :=
  (mkClientConn (target c) (S (closeCalls c)),
   match closeCalls c with
   | O => match x with ExtOk => None | ExtErr msg => Some (errExternal msg) end
   | S _ => Some ErrClientConnClosing
   end).

(** ** One statement of one goroutine *)

(** [listenTasks], lines 182-217. *)
Definition listenTasks (i : nat) (pc : ListenTasksPc) (x : Ext) (w : World)
  : option World :=
  match pc with
  | TLockMc =>
      if mc (svc w) then None
      else Some (goto i (TListen (LListenTasks TWithCancel))
                   (with_svc (set_mc true) w))
  | TWithCancel =>
      Some (goto i (TListen (LListenTasks TUnlockMc))
              (set_ctxDone false (with_svc (set_cancel (Some CancelStream)) w)))
  | TUnlockMc =>
      Some (goto i (TListen (LListenTasks TListenTask))
              (with_svc (set_mc false) w))
  | TListenTask =>
      match x with
      | ExtErr msg =>
          Some (goto i (TListen (LReturned AtOpen (Some (errExternal msg)))) w)
      | ExtOk => Some (goto i (TListen (LListenTasks TGoWatch)) w)
      end
  | TGoWatch =>
      Some (goto i (TListen (LListenTasks TGoRecv)) (spawn (TWatch WDone) w))
  | TGoRecv =>
      Some (goto i (TListen (LListenTasks TRecvErrC)) (spawn (TRecv RAdd) w))
  | TRecvErrC => None
  end.

(** [Listen], lines 162-176. *)
Definition Listen (i : nat) (pc : ListenPc) (x : Ext) (w : World)
  : option World :=
  match pc with
  | LLock task tasks =>
      if ml (svc w) then None
      else Some (goto i (TListen (LIfListening task tasks))
                   (with_svc (set_ml true) w))
  | LIfListening task tasks =>
      if isListening (svc w) then Some (goto i (TListen LUnlockErr) w)
      else Some (goto i (TListen (LSetListening task tasks)) w)
  | LUnlockErr =>
      Some (goto i (TListen (LReturned AtGate (Some errAlreadyListening)))
              (with_svc (set_ml false) w))
  | LSetListening task tasks =>
      Some (goto i (TListen (LUnlock task tasks))
              (with_svc (set_isListening true) w))
  | LUnlock task tasks =>
      Some (goto i (TListen (LSetTaskables task tasks))
              (with_svc (set_ml false) w))
  | LSetTaskables task tasks =>
      Some (goto i (TListen LValidate)
              (with_svc (set_taskables (tasks ++ [task])) w))
  | LValidate =>
      match validateTasks (svc w) with
      | Some err => Some (goto i (TListen (LReturned AtValidate (Some err))) w)
      | None => Some (goto i (TListen (LListenTasks TLockMc)) w)
      end
  | LListenTasks pc' => listenTasks i pc' x w
  | LReturned _ _ => None
  end.

(** The goroutine of lines 195-198. *)
Definition watchContext (i : nat) (pc : WatchPc) (w : World) : option World :=
  match pc with
  | WDone =>
      if streamCtxDone w then Some (goto i (TWatch WSend) w) else None
  | WSend => sendErrC i (TWatch WExit) (Some contextCanceled) w
  | WExit => None
  end.

(** The goroutine of lines 200-215.  At [stream.Recv()] the scheduler
    says which of the two results is taken when both are there: with
    [ExtOk] the next message, with [ExtErr] the error of the stream (the
    message of [ExtErr] is not looked at). *)
Definition recvLoop (i : nat) (pc : RecvPc) (x : Ext) (w : World)
  : option World :=
  match pc with
  | RAdd =>
      Some (emit EvAdd (goto i (TRecv RRecv) (with_svc (wgAdd 1) w)))
  | RRecv =>
      match x with
      | ExtOk =>
          match inbox w with
          | data :: rest => Some (goto i (TRecv (RGo data)) (set_inbox rest w))
          | [] => None
          end
      | ExtErr _ =>
          match recvErr w with
          | Some err => Some (goto i (TRecv (RDone err)) w)
          | None => None
          end
      end
  | RDone err =>
      Some (emit EvDoneRecv
              (goto i (TRecv (RIfClosing err)) (with_svc (wgAdd (-1)) w)))
  | RIfClosing err =>
      if closing (svc w) then Some (goto i (TRecv (RSend None)) w)
      else Some (goto i (TRecv (RSend (Some err))) w)
  | RSend v => sendErrC i (TRecv RExit) v w
  | RGo data =>
      Some (emit (EvGo data)
              (goto i (TRecv RAdd) (spawn (TExec (EStart data)) w)))
  | RExit => None
  end.

(** Modelled from the spec: [execution.reply], which is in another file of
    the package.  It serializes the outcome and makes one unary call with
    the timeout of the service; it returns the error of the serialization
    or of the call, or nil once the reply is delivered ([EvReply]). *)
Definition reply (data : TaskData) (outputKey out : string) (x : Ext)
    (w : World) : World * option error :=
  match x with
  | ExtOk => (emit (EvReply data outputKey out) w, None)
  | ExtErr msg => (w, Some (errExternal msg))
  end.

(** [executeTask], lines 228-239.  The deferred [Done] runs last on every
    path; after the [Done] of a panicking handler the panic, which nothing
    recovers, ends the process. *)
Definition executeTask (i : nat) (pc : ExecPc) (x : Ext) (w : World)
  : option World :=
  match pc with
  | EStart data =>
      match getTaskableByName (taskables (svc w)) (TaskKey data) with
      | None => Some (goto i (TExec (ELogMissing data)) w)
      | Some taskable => Some (goto i (TExec (EExecute data taskable)) w)
      end
  | ELogMissing data =>
      Some (emit (EvLog (errNonExistentTask (TaskKey data)))
              (goto i (TExec (EDone data false)) w))
  | EExecute data taskable =>
      match Execute taskable data with
      | HReturn outputKey out =>
          Some (goto i (TExec (EReply data outputKey out)) w)
      | HPanic => Some (goto i (TExec (EDone data true)) w)
      end
  | EReply data outputKey out =>
      match reply data outputKey out x w with
      | (w', Some err) => Some (goto i (TExec (ELogErr data err)) w')
      | (w', None) => Some (goto i (TExec (EDone data false)) w')
      end
  | ELogErr data err =>
      Some (emit (EvLog err) (goto i (TExec (EDone data false)) w))
  | EDone data panicking =>
      let w' := emit (EvDoneExec data) (with_svc (wgAdd (-1)) w) in
      if panicking
      then Some (set_crashed true (goto i (TExec (EPanicked data)) w'))
      else Some (goto i (TExec (EFinished data)) w')
  | EFinished _ => None
  | EPanicked _ => None
  end.

(** [Close], lines 259-266.  Calling the nil [s.cancel], or [Close] on a
    nil [s.conn], panics: the deferred [Unlock] runs and the panic goes to
    the caller. *)
Definition Close (i : nat) (pc : ClosePc) (x : Ext) (w : World)
  : option World :=
  match pc with
  | CLock =>
      if mc (svc w) then None
      else Some (goto i (TClose CSetClosing) (with_svc (set_mc true) w))
  | CSetClosing =>
      Some (goto i (TClose CCancel) (with_svc (set_closing true) w))
  | CCancel =>
      match cancel (svc w) with
      | None => Some (goto i (TClose CUnlockPanic) w)
      | Some CancelStream =>
          Some (emit EvCancel (goto i (TClose CWait) (set_ctxDone true w)))
      end
  | CWait =>
      if gracefulWait (svc w) =? 0 then Some (goto i (TClose CConnClose) w)
      else None
  | CConnClose =>
      match conn (svc w) with
      | None => Some (goto i (TClose CUnlockPanic) w)
      | Some c =>
          let '(c', r) := connClose c x in
          Some (emit (EvConnClose r)
                  (goto i (TClose (CUnlock r))
                     (with_svc (set_conn (Some c')) w)))
      end
  | CUnlock r =>
      Some (goto i (TClose (CReturned r)) (with_svc (set_mc false) w))
  | CUnlockPanic =>
      Some (goto i (TClose CPanicked) (with_svc (set_mc false) w))
  | CReturned _ => None
  | CPanicked => None
  end.

(** ** The transition system *)

(** What can happen next: the client program calls [Listen] or [Close] in
    a goroutine of its own, the server puts a task on the stream, the
    stream ends with an error, or the scheduler runs the next statement of
    goroutine [i] (and [x] is the answer of the outside world, if that
    statement asks for one). *)
Inductive Action : Type :=
| CallListen (task : Taskable) (tasks : list Taskable)
| CallClose
| ServerSend (data : TaskData)
| StreamFail (msg : string)
| Run (i : nat) (x : Ext).

(** One statement of goroutine [t], which is the [i]th. *)
Definition runThread (i : nat) (t : Thread) (x : Ext) (w : World)
  : option World :=
  match t with
  | TListen pc => Listen i pc x w
  | TWatch pc => watchContext i pc w
  | TRecv pc => recvLoop i pc x w
  | TExec pc => executeTask i pc x w
  | TClose pc => Close i pc x w
  end.

(** One step; [None] when the action cannot happen now (the goroutine is
    blocked or has ended, or the process is dead). *)
Definition step (a : Action) (w : World) : option World :=
  if crashed w then None
  else
    match a with
    | CallListen task tasks => Some (spawn (TListen (LLock task tasks)) w)
    | CallClose => Some (spawn (TClose CLock) w)
    | ServerSend data => Some (set_inbox (inbox w ++ [data]) w)
    | StreamFail msg =>
        match streamErr w with
        | Some _ => None
        | None => Some (set_streamErr (Some (errExternal msg)) w)
        end
    | Run i x =>
        match threads w !! i with
        | Some t => runThread i t x w
        | None => None
        end
    end.

(** A schedule, run from [w]. *)
Fixpoint run (acts : list Action) (w : World) : option World :=
  match acts with
  | [] => Some w
  | a :: rest =>
      match step a w with
      | Some w' => run rest w'
      | None => None
      end
  end.

(** A service as [New] returns it without an error: connected, and nothing
    started. *)
Definition fresh (s : Service) : Prop :=
  cancel s = None /\ closing s = false /\ mc s = false /\
  isListening s = false /\ ml s = false /\ gracefulWait s = 0 /\
  (exists c, conn s = Some c /\ closeCalls c = O).

(** The worlds the service can be in. *)
Definition reachable (w : World) : Prop :=
  exists s acts, fresh s /\ run acts (boot s) = Some w.

(** ** Counting goroutines and events *)

(** The sum of a weight over the goroutines. *)
Fixpoint sumw (f : Thread -> Z) (l : list Thread) : Z :=
  match l with
  | [] => 0
  | t :: rest => f t + sumw f rest
  end.

(** The number of events of a kind in a trace. *)
Fixpoint count (p : Event -> bool) (tr : list Event) : Z :=
  match tr with
  | [] => 0
  | e :: rest => (if p e then 1 else 0) + count p rest
  end.

Definition b2z (b : bool) : Z := if b then 1 else 0.

Definition isAdd (e : Event) : bool :=
  match e with EvAdd => true | _ => false end.
Definition isDoneRecv (e : Event) : bool :=
  match e with EvDoneRecv => true | _ => false end.
Definition isDoneExec (e : Event) : bool :=
  match e with EvDoneExec _ => true | _ => false end.
Definition isGo (e : Event) : bool :=
  match e with EvGo _ => true | _ => false end.
Definition isReply (e : Event) : bool :=
  match e with EvReply _ _ _ => true | _ => false end.
Definition isErrC (e : Event) : bool :=
  match e with EvErrC _ => true | _ => false end.
Definition isCancel (e : Event) : bool :=
  match e with EvCancel => true | _ => false end.
Definition isConnClose (e : Event) : bool :=
  match e with EvConnClose _ => true | _ => false end.

(** The values received from [errC], the most recent first. *)
Fixpoint reported (tr : list Event) : list (option error) :=
  match tr with
  | [] => []
  | EvErrC v :: rest => v :: reported rest
  | _ :: rest => reported rest
  end.

(** The receive loop has added one to the counter for the message it
    waits for or is about to hand over. *)
Definition recv_holds (t : Thread) : Z :=
  match t with
  | TRecv RRecv | TRecv (RDone _) | TRecv (RGo _) => 1
  | _ => 0
  end.

(** An execution in flight: dispatched, its deferred [Done] not run yet. *)
Definition exec_live (t : Thread) : Z :=
  match t with
  | TExec (EFinished _) | TExec (EPanicked _) => 0
  | TExec _ => 1
  | _ => 0
  end.

(** An execution that has run its deferred [Done]. *)
Definition exec_ended (t : Thread) : Z :=
  match t with
  | TExec (EFinished _) | TExec (EPanicked _) => 1
  | _ => 0
  end.

(** The receive loop has run the [Done] of line 205. *)
Definition recv_undone (t : Thread) : Z :=
  match t with
  | TRecv (RIfClosing _) | TRecv (RSend _) | TRecv RExit => 1
  | _ => 0
  end.

(** The number of executions in flight. *)
Definition inFlight (w : World) : Z := sumw exec_live (threads w).

(** The receive loop may still hand a message over: it has not seen
    [Recv] fail. *)
Definition recv_active (t : Thread) : Z :=
  match t with
  | TRecv RAdd | TRecv RRecv | TRecv (RGo _) => 1
  | _ => 0
  end.

(** The receive loop has seen [Recv] fail. *)
Definition recv_over (t : Thread) : Z :=
  match t with
  | TRecv (RDone _) | TRecv (RIfClosing _) | TRecv (RSend _) | TRecv RExit => 1
  | _ => 0
  end.

(** A call of [Listen] holding [ml] that found the flag unset and is about
    to set it (line 168). *)
Definition ml_setting (t : Thread) : Z :=
  match t with
  | TListen (LSetListening _ _) => 1
  | _ => 0
  end.

(** A call of [Listen] holding [ml] anywhere else. *)
Definition ml_other (t : Thread) : Z :=
  match t with
  | TListen (LIfListening _ _) | TListen LUnlockErr | TListen (LUnlock _ _) => 1
  | _ => 0
  end.

(** A call of [Listen] that has set the flag and has not returned. *)
Definition l_open (t : Thread) : Z :=
  match t with
  | TListen (LUnlock _ _) | TListen (LSetTaskables _ _) | TListen LValidate
  | TListen (LListenTasks _) => 1
  | _ => 0
  end.

(** A call of [Listen] that has set the flag and returned before it
    received from [errC] (lines 173 and 191). *)
Definition l_early (t : Thread) : Z :=
  match t with
  | TListen (LReturned AtValidate _) | TListen (LReturned AtOpen _) => 1
  | _ => 0
  end.

(** A call of [Listen] that returned the value it received from [errC]. *)
Definition l_errc (t : Thread) : Z :=
  match t with
  | TListen (LReturned AtErrC _) => 1
  | _ => 0
  end.

(** A call of [Listen] that made the transition of the flag. *)
Definition transitioned (t : Thread) : Z := l_open t + l_early t + l_errc t.

(** A call of [Listen] that found the flag set. *)
Definition rejected (t : Thread) : Z :=
  match t with
  | TListen LUnlockErr | TListen (LReturned AtGate _) => 1
  | _ => 0
  end.

(** A call of [Listen] that has set the flag and has not started the
    receive loop yet. *)
Definition spawner (t : Thread) : Z :=
  match t with
  | TListen (LListenTasks TRecvErrC) => 0
  | TListen (LUnlock _ _) | TListen (LSetTaskables _ _) | TListen LValidate
  | TListen (LListenTasks _) => 1
  | _ => 0
  end.

(** A call of [Listen] that has run line 185 and so stored [s.cancel]. *)
Definition past185 (t : Thread) : Z :=
  match t with
  | TListen (LListenTasks TLockMc) | TListen (LListenTasks TWithCancel) => 0
  | TListen (LListenTasks _) => 1
  | TListen (LReturned AtOpen _) | TListen (LReturned AtErrC _) => 1
  | _ => 0
  end.

(** A call of [Listen] that has opened the task stream (line 187 gave no
    error). *)
Definition streamOpened (t : Thread) : Z :=
  match t with
  | TListen (LListenTasks TGoWatch) | TListen (LListenTasks TGoRecv)
  | TListen (LListenTasks TRecvErrC) | TListen (LReturned AtErrC _) => 1
  | _ => 0
  end.

(** A call of [Close] that has called [s.cancel()] (line 263). *)
Definition cancelled (t : Thread) : Z :=
  match t with
  | TClose CWait | TClose CConnClose | TClose (CUnlock _)
  | TClose (CReturned _) => 1
  | _ => 0
  end.

(** A call of [Close] that has called [s.conn.Close()] (line 265). *)
Definition connClosed (t : Thread) : Z :=
  match t with
  | TClose (CUnlock _) | TClose (CReturned _) => 1
  | _ => 0
  end.

(** A call of [Close] that has not come back from [Wait] (line 264). *)
Definition beforeWait (pc : ClosePc) : bool :=
  match pc with
  | CLock | CSetClosing | CCancel | CWait => true
  | _ => false
  end.

(** A call of [Close] that panicked. *)
Definition closePanics (pc : ClosePc) : bool :=
  match pc with
  | CUnlockPanic | CPanicked => true
  | _ => false
  end.

(** What a goroutine that returned has to do with the trace: a rejected
    [Listen] returned [errAlreadyListening], a [Listen] that returned from
    line 216 returned a value received from [errC], and [Close] returns
    what [s.conn.Close()] returned. *)
Definition thread_ok (tr : list Event) (t : Thread) : Prop :=
  match t with
  | TListen (LReturned AtGate r) => r = Some errAlreadyListening
  | TListen (LReturned AtErrC r) => In (EvErrC r) tr
  | TClose (CUnlock r) | TClose (CReturned r) => In (EvConnClose r) tr
  | _ => True
  end.

(** The invariant of the transition system. *)
Record Inv (w : World) : Prop := mkInv {
  inv_wg :
    gracefulWait (svc w)
    = sumw recv_holds (threads w) + sumw exec_live (threads w);
  inv_adds :
    count isAdd (trace w)
    = count isGo (trace w) + count isDoneRecv (trace w)
      + sumw recv_holds (threads w);
  inv_gos :
    count isGo (trace w)
    = sumw exec_live (threads w) + sumw exec_ended (threads w);
  inv_dexec : count isDoneExec (trace w) = sumw exec_ended (threads w);
  inv_drecv : count isDoneRecv (trace w) = sumw recv_undone (threads w);
  inv_ml :
    sumw ml_setting (threads w) + sumw ml_other (threads w) = b2z (ml (svc w));
  inv_gate :
    if isListening (svc w) then
      sumw ml_setting (threads w) = 0 /\
      sumw l_open (threads w) + sumw l_early (threads w)
        + sumw l_errc (threads w) = 1 /\
      sumw spawner (threads w) + sumw recv_active (threads w)
        + sumw recv_over (threads w) <= 1
    else
      sumw l_open (threads w) + sumw l_early (threads w)
        + sumw l_errc (threads w) = 0 /\
      sumw spawner (threads w) + sumw recv_active (threads w)
        + sumw recv_over (threads w) = 0 /\
      sumw rejected (threads w) = 0;
  inv_errc : count isErrC (trace w) = sumw l_errc (threads w);
  inv_cancel : count isCancel (trace w) = sumw cancelled (threads w);
  inv_stored :
    match cancel (svc w) with
    | None => sumw past185 (threads w) = 0 /\ sumw cancelled (threads w) = 0
    | Some _ => 1 <= sumw past185 (threads w)
    end;
  inv_conn :
    exists c, conn (svc w) = Some c /\
      Z.of_nat (closeCalls c) = sumw connClosed (threads w) /\
      count isConnClose (trace w) = sumw connClosed (threads w);
  inv_threads : Forall (thread_ok (trace w)) (threads w)
}.

(** The statements an execution has left, at most. *)
Definition execLeft (pc : ExecPc) : nat :=
  match pc with
  | EStart _ => 5
  | EExecute _ _ => 4
  | EReply _ _ _ => 3
  | ELogMissing _ | ELogErr _ _ => 2
  | EDone _ _ => 1
  | EFinished _ | EPanicked _ => 0
  end.

(** A call of [Close] that is back from [Wait] and is not panicking: it
    is about to call [s.conn.Close()], or has called it. *)
Definition afterWait (pc : ClosePc) : bool :=
  match pc with
  | CConnClose | CUnlock _ | CReturned _ => true
  | _ => false
  end.

(** What holds of a call of [Close], goroutine [j], made after another,
    goroutine [i], has returned, and goes on holding. *)
Definition closingAgain (i j : nat) (r1 : option error) (w : World) : Prop :=
  cancel (svc w) <> None /\
  (exists c, conn (svc w) = Some c /\ closeCalls c <> O) /\
  threads w !! i = Some (TClose (CReturned r1)) /\
  exists pc,
    threads w !! j = Some (TClose pc) /\ closePanics pc = false /\
    forall r, pc = CUnlock r \/ pc = CReturned r ->
              r = Some ErrClientConnClosing.

(** ** What the options of [New] amount to *)

(** The addresses, tokens, timeouts and dialers the options give, in the
    order of the options. *)
Definition endpointsOf (options : list Option) : list string :=
  omap (fun o => match o with EndpointOption a => Some a | _ => None end)
    options.
Definition tokensOf (options : list Option) : list string :=
  omap (fun o => match o with TokenOption t => Some t | _ => None end)
    options.
Definition timeoutsOf (options : list Option) : list Z :=
  omap (fun o => match o with TimeoutOption d => Some d | _ => None end)
    options.
Definition logOutputsOf (options : list Option) : list string :=
  omap (fun o => match o with LogOutputOption out => Some out | _ => None end)
    options.
Definition dialersOf (options : list Option) : list string :=
  omap (fun o => match o with DialOption d => Some d | _ => None end)
    options.

(** ** More counting, for the two mutexes, the flags and the replies *)

(** A goroutine between [s.mc.Lock()] and [s.mc.Unlock()]: lines 185-186
    of [listenTasks], lines 262-265 of [Close] and its deferred
    [Unlock]. *)
Definition in_mc (t : Thread) : Z :=
  match t with
  | TListen (LListenTasks TWithCancel) | TListen (LListenTasks TUnlockMc) => 1
  | TClose CSetClosing | TClose CCancel | TClose CWait | TClose CConnClose
  | TClose (CUnlock _) | TClose CUnlockPanic => 1
  | _ => 0
  end.

(** A goroutine between [s.ml.Lock()] and [s.ml.Unlock()]: lines 164-169
    of [Listen]. *)
Definition in_ml (t : Thread) : Z := ml_setting t + ml_other t.

(** A call of [Close] that has run line 262, [s.closing = true]. *)
Definition past262 (t : Thread) : Z :=
  match t with
  | TClose CLock | TClose CSetClosing => 0
  | TClose _ => 1
  | _ => 0
  end.

(** A call of [Listen] that has set the flag and has not run line 185. *)
Definition before185 (t : Thread) : Z :=
  match t with
  | TListen (LUnlock _ _) | TListen (LSetTaskables _ _) | TListen LValidate
  | TListen (LListenTasks TLockMc) | TListen (LListenTasks TWithCancel)
  | TListen (LReturned AtValidate _) => 1
  | _ => 0
  end.

(** A receive loop, wherever it is. *)
Definition recv_any (t : Thread) : Z := recv_active t + recv_over t.

(** An execution that may still deliver a reply. *)
Definition may_reply (t : Thread) : Z :=
  match t with
  | TExec (EStart _) | TExec (EExecute _ _) | TExec (EReply _ _ _) => 1
  | _ => 0
  end.

(** A nil report: the receive loop sends nil on [errC], or [Listen] has
    returned nil.  With [c] the closing flag, it is there only when the
    flag is set. *)
Definition report_ok (c : bool) (t : Thread) : Prop :=
  match t with
  | TRecv (RSend None) | TListen (LReturned _ None) => c = true
  | _ => True
  end.

(** The request was handled by [taskable], which gave this output. *)
Definition handledBy (data : TaskData) (outputKey out : string)
    (taskable : Taskable) : Prop :=
  Key taskable = TaskKey data /\
  Execute taskable data = HReturn outputKey out.

(** An execution is for a request that was dispatched; the taskable it
    executes has the key of the request, and the reply it is about to
    make is what that taskable returned. *)
Definition exec_ok (tr : list Event) (t : Thread) : Prop :=
  match t with
  | TExec (EExecute data taskable) =>
      In (EvGo data) tr /\ Key taskable = TaskKey data
  | TExec (EReply data outputKey out) =>
      In (EvGo data) tr /\ exists taskable, handledBy data outputKey out taskable
  | TExec (EStart data) | TExec (ELogMissing data) | TExec (ELogErr data _)
  | TExec (EDone data _) | TExec (EFinished data) | TExec (EPanicked data) =>
      In (EvGo data) tr
  | _ => True
  end.

(** A reply in the trace is for a request that was dispatched, and
    carries what a taskable with the key of the request returned. *)
Definition reply_ok (tr : list Event) (e : Event) : Prop :=
  match e with
  | EvReply data outputKey out =>
      In (EvGo data) tr /\ exists taskable, handledBy data outputKey out taskable
  | _ => True
  end.

(** The requests dispatched, the most recent first. *)
Fixpoint dispatched (tr : list Event) : list TaskData :=
  match tr with
  | [] => []
  | EvGo data :: rest => data :: dispatched rest
  | _ :: rest => dispatched rest
  end.

(** The request a goroutine has received and not handed over yet. *)
Definition hold1 (t : Thread) : list TaskData :=
  match t with
  | TRecv (RGo data) => [data]
  | _ => []
  end.

(** The requests received and not handed over yet. *)
Fixpoint holding (l : list Thread) : list TaskData :=
  match l with
  | [] => []
  | t :: rest => hold1 t ++ holding rest
  end.

(** The requests the server put on the stream in a schedule, in order. *)
Fixpoint sent (acts : list Action) : list TaskData :=
  match acts with
  | [] => []
  | ServerSend data :: rest => data :: sent rest
  | _ :: rest => sent rest
  end.

(** The requests of the stream in the order the server sent them: those
    dispatched, the one the receive loop holds, those not received. *)
Definition requests (w : World) : list TaskData :=
  rev (dispatched (trace w)) ++ holding (threads w) ++ inbox w.

(** The second invariant of the transition system. *)
Record Inv2 (w : World) : Prop := mkInv2 {
  inv_mc : sumw in_mc (threads w) = b2z (mc (svc w));
  inv_closing :
    if closing (svc w) then 1 <= sumw past262 (threads w)
    else sumw past262 (threads w) = 0;
  inv_ctx :
    if ctxDone w then 1 <= sumw cancelled (threads w)
    else sumw cancelled (threads w) = 0;
  inv_report : Forall (report_ok (closing (svc w))) (threads w);
  inv_replies :
    count isReply (trace w) + sumw may_reply (threads w)
    <= count isGo (trace w);
  inv_exec : Forall (exec_ok (trace w)) (threads w);
  inv_reply : Forall (reply_ok (trace w)) (trace w)
}.

(** ** A service and schedules to run it on *)

Module Sample.

(** An environment with no variable set, and a dial that succeeds. *)
Definition noEnv : string -> string := fun _ => "".
Definition dialOk : DialCall -> option error := fun _ => None.

Definition options : list Option :=
  [EndpointOption "localhost:50052"; TokenOption "service-token"].

(** The service [New] makes of these. *)
Definition service : Service :=
  let c := mkClientConn "localhost:50052" O in
  set_client (Some c) (set_conn (Some c) (configure noEnv options)).

(** A task handler, and two messages of the stream: one for it, one for
    a task nobody handles. *)
Definition sum : Taskable :=
  {| Key := "sum"; Execute := fun _ => HReturn "result" "5" |}.
Definition sumRequest : TaskData :=
  {| ExecutionID := "exec-1"; TaskKey := "sum"; InputData := "{a:2,b:3}" |}.
Definition fooRequest : TaskData :=
  {| ExecutionID := "exec-2"; TaskKey := "foo"; InputData := "{}" |}.

(** Goroutine [i] runs [n] statements. *)
Definition runs (i : nat) (n : nat) : list Action := repeat (Run i ExtOk) n.

(** [Listen(sum)] is called and runs until it waits at line 216: it is
    goroutine 0, the goroutine of lines 195-198 is 1, the receive loop
    is 2. *)
Definition listening : list Action := CallListen sum [] :: runs 0 12.

(** Then the receive loop adds one to the counter and blocks in
    [Recv]. *)
Definition receiving : list Action := listening ++ [Run 2 ExtOk].

(** [Close] is called as goroutine [i] and runs up to and including
    [s.cancel()]. *)
Definition closeCancels (i : nat) : list Action := CallClose :: runs i 3.

(** [Close] is called as goroutine [i] and runs until it returns. *)
Definition closeReturns (i : nat) : list Action := CallClose :: runs i 6.

(** [Close] while [Listen] is blocked in [Recv]; then the goroutine of
    lines 195-198 wakes up and sends. *)
Definition closeWhileReceiving : list Action :=
  receiving ++ closeCancels 3 ++ runs 1 2.

(** The same, but the receive loop gets the error of [Recv] and sends
    first. *)
Definition closeRecvFirst : list Action :=
  receiving ++ closeCancels 3 ++ [Run 2 (ExtErr "")] ++ runs 2 3.

(** A message was received before [Close] cancels; it is handed over
    after. *)
Definition dispatchAfterCancel : list Action :=
  receiving ++ [ServerSend sumRequest; Run 2 ExtOk] ++ closeCancels 3
  ++ [Run 2 ExtOk].

(** [Close] twice, one after the other, with [Listen] waiting. *)
Definition closeTwice : list Action :=
  listening ++ closeReturns 3 ++ closeReturns 4.

(** [Close] on a service that [Listen] was never called on. *)
Definition closeFirst : list Action := CallClose :: runs 0 4.

(** [Listen] does not get its stream; then [Close]. *)
Definition closeAfterFailedOpen : list Action :=
  CallListen sum [] :: runs 0 9 ++ [Run 0 (ExtErr "unavailable")]
  ++ closeReturns 1.

(** [Listen] twice, the second call after the first passed the gate. *)
Definition listenTwice : list Action :=
  listening ++ CallListen sum [] :: runs 3 3.

(** A task nobody handles arrives and is executed; then a task for
    [sum]. *)
Definition unknownTask : list Action :=
  receiving ++ [ServerSend fooRequest; ServerSend sumRequest;
                Run 2 ExtOk; Run 2 ExtOk].

(** A task for [sum] is dispatched and [Close] is called while it
    runs. *)
Definition closeWhileExecuting : list Action :=
  receiving ++ [ServerSend sumRequest; Run 2 ExtOk; Run 2 ExtOk; Run 2 ExtOk]
  ++ closeCancels 4.

(** Then the execution finishes, [Recv] fails, and [Close] returns. *)
Definition drained : list Action :=
  runs 3 4 ++ [Run 2 (ExtErr "")] ++ runs 2 1 ++ runs 4 3.

(** The world a schedule leads to from the start of the sample service. *)
Definition world (acts : list Action) : World :=
  default (boot service) (run acts (boot service)).

End Sample.

(** * Properties *)

(** ** Sums over the goroutines *)

Lemma sumw_app f l1 l2 : sumw f (l1 ++ l2) = sumw f l1 + sumw f l2.
Proof. induction l1 as [|t l1 IH]; simpl; lia. Qed.

Lemma sumw_insert f (l : list Thread) i t t' :
  l !! i = Some t -> sumw f (<[i:=t']> l) = sumw f l - f t + f t'.
Proof.
  revert i. induction l as [|a l IH]; intros [|i] H; simpl in *;
    try discriminate.
  - inversion H. lia.
  - rewrite (IH _ H). lia.
Qed.

Lemma sumw_insert_app f (l l2 : list Thread) i t t' :
  l !! i = Some t ->
  sumw f (<[i:=t']> (l ++ l2)) = sumw f l - f t + f t' + sumw f l2.
Proof.
  intros H. rewrite insert_app_l by (eapply lookup_lt_Some; eassumption).
  rewrite sumw_app, (sumw_insert _ _ _ _ _ H). lia.
Qed.

Lemma sumw_insert2 f (l : list Thread) i k a a' b b' :
  l !! i = Some a -> l !! k = Some b -> i <> k ->
  sumw f (<[k:=b']> (<[i:=a']> l)) = sumw f l - f a + f a' - f b + f b'.
Proof.
  intros Hi Hk Hne.
  rewrite (sumw_insert f (<[i:=a']> l) k b b').
  - rewrite (sumw_insert _ _ _ _ _ Hi). lia.
  - rewrite list_lookup_insert_ne by exact Hne. exact Hk.
Qed.

Lemma sumw_nonneg f l : (forall t, 0 <= f t) -> 0 <= sumw f l.
Proof.
  intros Hf. induction l as [|a l IH]; simpl; [lia|].
  specialize (Hf a). lia.
Qed.

Lemma sumw_lookup_le f (l : list Thread) i t :
  (forall t, 0 <= f t) -> l !! i = Some t -> f t <= sumw f l.
Proof.
  intros Hf. revert i.
  induction l as [|a l IH]; intros [|i] H; simpl in *; try discriminate.
  - inversion H. subst. pose proof (sumw_nonneg f l Hf). lia.
  - specialize (IH _ H). specialize (Hf a). lia.
Qed.

Lemma receiver_Some l k :
  receiver l = Some k -> l !! k = Some (TListen (LListenTasks TRecvErrC)).
Proof.
  revert k. induction l as [|a l IH]; intros k H; simpl in H; [discriminate|].
  destruct a as [pc| | | |];
    try (destruct (receiver l) as [k'|]; simpl in H; [|discriminate];
         inversion H; subst; simpl; apply IH; reflexivity).
  destruct pc as [ | | | | | | |pc'| ];
    try (destruct (receiver l) as [k'|]; simpl in H; [|discriminate];
         inversion H; subst; simpl; apply IH; reflexivity).
  destruct pc';
    try (destruct (receiver l) as [k'|]; simpl in H; [|discriminate];
         inversion H; subst; simpl; apply IH; reflexivity).
  inversion H. reflexivity.
Qed.

(** ** The invariant holds in every reachable world *)

(** The cases of a step: which action, which goroutine, which statement,
    and which way the statement goes. *)
Ltac step_cases H :=
  match type of H with
  | step ?a ?w = Some ?w' =>
      unfold step in H;
      destruct (crashed w) eqn:Hcr; [discriminate|];
      destruct a as [task tasks| |data|msg|i x];
      [ | | | |
        let t := fresh "t" in let Hi := fresh "Hi" in
        destruct (threads w !! i) as [t|] eqn:Hi; [|discriminate];
        destruct t as [pc|pc|pc|pc|pc];
        [ destruct pc as [? ?|? ?| |? ?|? ?|? ?| |pc|? ?];
          [ | | | | | | |destruct pc| ]
        | destruct pc | destruct pc | destruct pc | destruct pc ];
        cbn [runThread Listen listenTasks watchContext recvLoop executeTask
             Close reply connClose] in H ];
      unfold sendErrC, validateTasks, reply in H;
      repeat case_match; simplify_eq;
      try match goal with
          | Hr : receiver _ = Some _ |- _ => apply receiver_Some in Hr
          end
  end.

Lemma thread_ok_mono e tr t : thread_ok tr t -> thread_ok (e :: tr) t.
Proof.
  destruct t as [pc| | | |pc]; try exact id; destruct pc; try exact id.
  - destruct site; try exact id. cbn. intros; right; assumption.
  - cbn. intros; right; assumption.
  - cbn. intros; right; assumption.
Qed.

Lemma Forall_thread_ok_mono e tr l :
  Forall (thread_ok tr) l -> Forall (thread_ok (e :: tr)) l.
Proof.
  intros H. eapply Forall_impl; [exact H|]. intros t. apply thread_ok_mono.
Qed.

Lemma recv_holds_nonneg t : 0 <= recv_holds t.
Proof. destruct t as [| |pc| |]; cbn; try lia; destruct pc; lia. Qed.
Lemma exec_live_nonneg t : 0 <= exec_live t.
Proof. destruct t as [| | |pc|]; cbn; try lia; destruct pc; lia. Qed.
Lemma exec_ended_nonneg t : 0 <= exec_ended t.
Proof. destruct t as [| | |pc|]; cbn; try lia; destruct pc; lia. Qed.
Lemma recv_undone_nonneg t : 0 <= recv_undone t.
Proof. destruct t as [| |pc| |]; cbn; try lia; destruct pc; lia. Qed.
Lemma recv_active_nonneg t : 0 <= recv_active t.
Proof. destruct t as [| |pc| |]; cbn; try lia; destruct pc; lia. Qed.
Lemma recv_over_nonneg t : 0 <= recv_over t.
Proof. destruct t as [| |pc| |]; cbn; try lia; destruct pc; lia. Qed.
Lemma ml_setting_nonneg t : 0 <= ml_setting t.
Proof. destruct t as [pc| | | |]; cbn; try lia; destruct pc; lia. Qed.
Lemma ml_other_nonneg t : 0 <= ml_other t.
Proof. destruct t as [pc| | | |]; cbn; try lia; destruct pc; lia. Qed.
Lemma l_open_nonneg t : 0 <= l_open t.
Proof. destruct t as [pc| | | |]; cbn; try lia; destruct pc; lia. Qed.
Lemma l_early_nonneg t : 0 <= l_early t.
Proof.
  destruct t as [pc| | | |]; cbn; try lia; destruct pc; try lia.
  destruct site; lia.
Qed.
Lemma l_errc_nonneg t : 0 <= l_errc t.
Proof.
  destruct t as [pc| | | |]; cbn; try lia; destruct pc; try lia.
  destruct site; lia.
Qed.
Lemma rejected_nonneg t : 0 <= rejected t.
Proof.
  destruct t as [pc| | | |]; cbn; try lia; destruct pc; try lia.
  destruct site; lia.
Qed.
Lemma spawner_nonneg t : 0 <= spawner t.
Proof.
  destruct t as [pc| | | |]; cbn; try lia; destruct pc; try lia.
  destruct pc; lia.
Qed.
Lemma past185_nonneg t : 0 <= past185 t.
Proof.
  destruct t as [pc| | | |]; cbn; try lia; destruct pc; try lia.
  - destruct pc; lia.
  - destruct site; lia.
Qed.
Lemma cancelled_nonneg t : 0 <= cancelled t.
Proof. destruct t as [| | | |pc]; cbn; try lia; destruct pc; lia. Qed.
Lemma connClosed_nonneg t : 0 <= connClosed t.
Proof. destruct t as [| | | |pc]; cbn; try lia; destruct pc; lia. Qed.

(** The sums of the weights of a world are not negative. *)
Ltac nonneg w :=
  pose proof (sumw_nonneg _ (threads w) recv_holds_nonneg);
  pose proof (sumw_nonneg _ (threads w) exec_live_nonneg);
  pose proof (sumw_nonneg _ (threads w) exec_ended_nonneg);
  pose proof (sumw_nonneg _ (threads w) recv_undone_nonneg);
  pose proof (sumw_nonneg _ (threads w) recv_active_nonneg);
  pose proof (sumw_nonneg _ (threads w) recv_over_nonneg);
  pose proof (sumw_nonneg _ (threads w) ml_setting_nonneg);
  pose proof (sumw_nonneg _ (threads w) ml_other_nonneg);
  pose proof (sumw_nonneg _ (threads w) l_open_nonneg);
  pose proof (sumw_nonneg _ (threads w) l_early_nonneg);
  pose proof (sumw_nonneg _ (threads w) l_errc_nonneg);
  pose proof (sumw_nonneg _ (threads w) rejected_nonneg);
  pose proof (sumw_nonneg _ (threads w) spawner_nonneg);
  pose proof (sumw_nonneg _ (threads w) past185_nonneg);
  pose proof (sumw_nonneg _ (threads w) cancelled_nonneg);
  pose proof (sumw_nonneg _ (threads w) connClosed_nonneg).

(** Bring the sums and counts of the world after a step back to those of
    the world before. *)
Ltac sums :=
  cbn [threads svc trace emit goto spawn with_svc set_threads set_inbox
       set_ctxDone set_streamErr set_crashed wgAdd set_gracefulWait
       gracefulWait set_mc set_ml set_cancel set_closing set_isListening
       set_taskables set_conn connClose mc ml isListening closing cancel
       conn taskables inbox streamErr ctxDone crashed] in *;
  repeat (erewrite sumw_insert2 by (eassumption || congruence));
  repeat (erewrite sumw_insert_app by eassumption);
  repeat (erewrite sumw_insert by eassumption);
  repeat rewrite sumw_app;
  cbn [sumw count]; cbn.

(** [thread_ok] after a step. *)
Ltac oks :=
  repeat match goal with
    | |- Forall _ (<[_:=_]> _) => apply Forall_insert
    | |- Forall _ (_ ++ _) => apply Forall_app_2
    | |- Forall (thread_ok (_ :: _)) (threads _) => apply Forall_thread_ok_mono
    | |- Forall _ (threads _) => assumption
    | |- Forall _ [_] => apply Forall_singleton
    end;
  try exact I; try (left; reflexivity); try reflexivity;
  try match goal with
      | Hok : Forall (thread_ok _) (threads ?w), Hi : threads ?w !! _ = Some _
        |- _ => exact (Forall_lookup_1 _ _ _ _ Hok Hi)
      end.

(** The goroutine that takes the step counts in the sums. *)
Ltac running_with lem :=
  match goal with
  | Hi : threads ?w !! ?i = Some ?t |- _ =>
      let Hle := fresh "Hle" in
      pose proof (sumw_lookup_le _ _ _ _ lem Hi) as Hle; cbn in Hle
  end.

Ltac running :=
  try (running_with ml_setting_nonneg; running_with ml_other_nonneg;
       running_with l_open_nonneg; running_with spawner_nonneg;
       running_with past185_nonneg; running_with cancelled_nonneg).

Lemma Inv_step a w w' : step a w = Some w' -> Inv w -> Inv w'.
Proof.
  intros H. step_cases H;
    intros [Iwg Iadds Igos Idexec Idrecv Iml Igate Ierrc Icancel Istored
              Iconn Ithreads];
    destruct Iconn as (cn & Hcn & Hcc & Hcnt);
    try congruence;
    match type of Iwg with
    | gracefulWait (svc ?w0) = _ =>
        nonneg w0; running; (constructor; [ | | | | | | | | | | |]); sums;
        try lia; try solve [oks];
        try (destruct (ml (svc w0)); cbn [b2z] in *; lia);
        try (destruct (isListening (svc w0)) eqn:Hlis; simplify_eq;
             cbn [b2z] in *; repeat split; lia);
        try (destruct (cancel (svc w0)) eqn:Hcan; simplify_eq;
             cbn beta iota in *; repeat split; lia);
        try (eexists; split; [eassumption || reflexivity|]; sums;
             simplify_eq; lia);
        try (destruct (ml (svc w0)); destruct (isListening (svc w0));
             cbn [b2z] in *; repeat split; lia)
    end.
Qed.

Lemma Inv_boot s : fresh s -> Inv (boot s).
Proof.
  intros (Hc & _ & _ & Hl & Hm & Hg & c & Hconn & Hcalls).
  constructor; cbn; try reflexivity.
  - exact Hg.
  - rewrite Hm. reflexivity.
  - rewrite Hl. repeat split; reflexivity.
  - rewrite Hc. split; reflexivity.
  - exists c. rewrite Hcalls. split; [exact Hconn|split; reflexivity].
  - constructor.
Qed.

Lemma Inv_run acts : forall w w', run acts w = Some w' -> Inv w -> Inv w'.
Proof.
  induction acts as [|a acts IH]; intros w w' H I; cbn in H.
  - inversion H; subst; exact I.
  - destruct (step a w) as [w1|] eqn:Hs; [|discriminate].
    exact (IH _ _ H (Inv_step _ _ _ Hs I)).
Qed.

Lemma reachable_Inv w : reachable w -> Inv w.
Proof.
  intros (s & acts & Hs & H). exact (Inv_run _ _ _ H (Inv_boot _ Hs)).
Qed.

Lemma run_app acts1 : forall acts2 w,
  run (acts1 ++ acts2) w
  = match run acts1 w with Some w1 => run acts2 w1 | None => None end.
Proof.
  induction acts1 as [|a acts1 IH]; intros acts2 w; cbn; [reflexivity|].
  destruct (step a w); [apply IH|reflexivity].
Qed.

Lemma reachable_run acts w w' :
  reachable w -> run acts w = Some w' -> reachable w'.
Proof.
  intros (s & acts0 & Hs & H0) H. exists s, (acts0 ++ acts).
  split; [exact Hs|]. rewrite run_app, H0. exact H.
Qed.

Lemma reachable_step a w w' :
  reachable w -> step a w = Some w' -> reachable w'.
Proof.
  intros Hr H. apply (reachable_run [a] w w' Hr). cbn. rewrite H. reflexivity.
Qed.

Lemma fresh_sample : fresh Sample.service.
Proof.
  repeat split. exists (mkClientConn "localhost:50052" O).
  split; reflexivity.
Qed.

(** What the sample schedules reach is reachable. *)
Lemma reachable_sample acts w :
  run acts (boot Sample.service) = Some w -> reachable w.
Proof.
  intros H. exists Sample.service, acts. split; [apply fresh_sample|exact H].
Qed.

(** ** Construction *)

Lemma applyOptions_idle options : forall s,
  (cancel s = None /\ closing s = false /\ mc s = false /\
   isListening s = false /\ ml s = false /\ gracefulWait s = 0) ->
  let s' := fold_left (fun s o => applyOption o s) options s in
  cancel s' = None /\ closing s' = false /\ mc s' = false /\
  isListening s' = false /\ ml s' = false /\ gracefulWait s' = 0.
Proof.
  induction options as [|o options IH]; intros s Hs; cbn; [exact Hs|].
  apply IH. destruct o; exact Hs.
Qed.

(** What [New] returns without an error is a fresh service. *)
Lemma New_fresh Getenv DialContext options s calls :
  New Getenv DialContext options = (Some s, None, calls) -> fresh s.
Proof.
  unfold New, setupServiceClient.
  pose proof (applyOptions_idle options
                (mkService (Getenv endpointEnv) (Getenv tokenEnv) None None
                   [WithKeepaliveParams (5 * Minute); WithInsecure]
                   (Second * 10) None false false false false 0 []
                   "ioutil.Discard")) as Hidle.
  cbn zeta in Hidle. fold (configure Getenv options) in Hidle.
  specialize (Hidle ltac:(repeat split)).
  destruct Hidle as (? & ? & ? & ? & ? & ?).
  destruct (String.eqb (endpoint _) ""); [discriminate|].
  destruct (String.eqb (token _) ""); [discriminate|].
  destruct (DialContext _); [discriminate|].
  intros Hnew. inversion Hnew; subst.
  repeat split; try assumption.
  eexists. split; reflexivity.
Qed.

(** C8, as stated, fails: with neither endpoint nor token set, the token
    is empty and [New] returns the error of the endpoint, not the one of
    the token. *)
Lemma New_empty_token_cex :
  ~ (forall Getenv DialContext options,
       let s := configure Getenv options in
       (endpoint s = "" ->
        New Getenv DialContext options = (None, Some errEndpointNotSet, [])) /\
       (token s = "" ->
        New Getenv DialContext options = (None, Some errTokenNotSet, [])) /\
       (endpoint s <> "" -> token s <> "" ->
        length (snd (New Getenv DialContext options)) = 1%nat)).
Proof.
  intros H.
  destruct (H Sample.noEnv Sample.dialOk []) as (_ & Htok & _).
  specialize (Htok eq_refl). discriminate Htok.
Qed.

(** C8, amended: [New] returns [errEndpointNotSet] when the endpoint is
    empty, and [errTokenNotSet] when the endpoint is not empty and the
    token is, both without a dial; when neither is empty it dials exactly
    once, with the timeout, endpoint and dial options of the service, and
    returns the service with the error of the dial. *)
Theorem New_checks_then_dials Getenv DialContext options :
  let s := configure Getenv options in
  (endpoint s = "" ->
   New Getenv DialContext options = (None, Some errEndpointNotSet, [])) /\
  (endpoint s <> "" -> token s = "" ->
   New Getenv DialContext options = (None, Some errTokenNotSet, [])) /\
  (endpoint s <> "" -> token s <> "" ->
   exists s',
     New Getenv DialContext options
     = (Some s',
        DialContext (mkDialCall (callTimeout s) (endpoint s) (dialOptions s)),
        [mkDialCall (callTimeout s) (endpoint s) (dialOptions s)])).
Proof.
  intros s. unfold New. fold s.
  destruct (String.eqb_spec (endpoint s) "") as [He|He].
  - split; [reflexivity|]. split; intros Hne; contradiction.
  - split; [intros; contradiction|].
    destruct (String.eqb_spec (token s) "") as [Ht|Ht].
    + split; [reflexivity|]. intros _ Hne; contradiction.
    + split; [intros; contradiction|]. intros _ _.
      unfold setupServiceClient.
      destruct (DialContext _); eexists; reflexivity.
Qed.

Lemma New_checks_then_dials_witness :
  New Sample.noEnv Sample.dialOk [] = (None, Some errEndpointNotSet, []) /\
  New Sample.noEnv Sample.dialOk [EndpointOption "localhost:50052"]
  = (None, Some errTokenNotSet, []) /\
  exists s' call,
    New Sample.noEnv Sample.dialOk Sample.options = (Some s', None, [call]).
Proof.
  split; [|split].
  - apply (proj1 (New_checks_then_dials Sample.noEnv Sample.dialOk [])).
    reflexivity.
  - apply (proj1 (proj2 (New_checks_then_dials Sample.noEnv Sample.dialOk
                           [EndpointOption "localhost:50052"]))).
    + discriminate.
    + reflexivity.
  - destruct (proj2 (proj2 (New_checks_then_dials Sample.noEnv Sample.dialOk
                              Sample.options))) as [s' Hs'].
    + discriminate.
    + discriminate.
    + exists s'. eexists. exact Hs'.
Defined.

Lemma New_sample :
  New Sample.noEnv Sample.dialOk Sample.options
  = (Some Sample.service, None,
     [mkDialCall (Second * 10) "localhost:50052"
        [WithKeepaliveParams (5 * Minute); WithInsecure]]).
Proof. reflexivity. Qed.

(** ** The listening loop *)

(** In any world, the goroutines other than [j] and what is not written
    are left as they are by the three statements of an execution of a task
    nobody handles. *)
Lemma unknown_task_run w j data x1 x2 x3 :
  crashed w = false ->
  threads w !! j = Some (TExec (EStart data)) ->
  getTaskableByName (taskables (svc w)) (TaskKey data) = None ->
  run [Run j x1; Run j x2; Run j x3] w
  = Some (goto j (TExec (EFinished data))
            (emit (EvDoneExec data)
               (with_svc (wgAdd (-1))
                  (emit (EvLog (errNonExistentTask (TaskKey data))) w)))).
Proof.
  intros Hcr Hj Hnone.
  assert (Hlt : (j < length (threads w))%nat)
    by (eapply lookup_lt_Some; eassumption).
  cbn [run]. unfold step at 1. rewrite Hcr, Hj. cbn [runThread executeTask].
  rewrite Hnone.
  unfold step at 1. cbn [crashed goto set_threads threads].
  rewrite Hcr, list_lookup_insert_eq by exact Hlt.
  cbn [runThread executeTask].
  unfold step at 1. cbn [crashed goto set_threads threads emit].
  rewrite Hcr, list_lookup_insert_eq by (rewrite length_insert; exact Hlt).
  cbn [runThread executeTask].
  unfold goto, emit, with_svc, set_threads. cbn.
  rewrite !list_insert_insert_eq. reflexivity.
Qed.

(** C6: an execution for a task key that no taskable has logs
    [errNonExistentTask], sends no reply, runs the deferred [Done] (the
    counter goes down by one) and ends; the other goroutines, the stream
    and the process are as they were, and the receive loop, if it waits in
    [Recv], takes the next message of the stream. *)
Theorem unknown_task_is_dropped w j data x1 x2 x3 :
  crashed w = false ->
  threads w !! j = Some (TExec (EStart data)) ->
  getTaskableByName (taskables (svc w)) (TaskKey data) = None ->
  exists w',
    run [Run j x1; Run j x2; Run j x3] w = Some w' /\
    trace w'
    = EvDoneExec data :: EvLog (errNonExistentTask (TaskKey data)) :: trace w /\
    count isReply (trace w') = count isReply (trace w) /\
    gracefulWait (svc w') = gracefulWait (svc w) - 1 /\
    threads w' !! j = Some (TExec (EFinished data)) /\
    (forall k, k <> j -> threads w' !! k = threads w !! k) /\
    inbox w' = inbox w /\ streamErr w' = streamErr w /\
    ctxDone w' = ctxDone w /\ crashed w' = false /\
    (forall k next rest,
        threads w !! k = Some (TRecv RRecv) -> inbox w = next :: rest ->
        step (Run k ExtOk) w'
        = Some (goto k (TRecv (RGo next)) (set_inbox rest w'))).
Proof.
  intros Hcr Hj Hnone. eexists.
  split; [exact (unknown_task_run w j data x1 x2 x3 Hcr Hj Hnone)|].
  assert (Hlt : (j < length (threads w))%nat)
    by (eapply lookup_lt_Some; eassumption).
  cbn. repeat split; try assumption; try lia.
  - apply list_lookup_insert_eq. exact Hlt.
  - intros k Hk. apply list_lookup_insert_ne. congruence.
  - intros k next rest Hk Hin. unfold step. cbn. rewrite Hcr.
    rewrite list_lookup_insert_ne by congruence. rewrite Hk. cbn.
    rewrite Hin. reflexivity.
Qed.


Lemma unknown_task_is_dropped_witness :
  exists w',
    run (Sample.runs 3 3) (Sample.world Sample.unknownTask) = Some w' /\
    count isReply (trace w')
    = count isReply (trace (Sample.world Sample.unknownTask)) /\
    gracefulWait (svc w')
    = gracefulWait (svc (Sample.world Sample.unknownTask)) - 1.
Proof.
  destruct (unknown_task_is_dropped (Sample.world Sample.unknownTask) 3
              Sample.fooRequest ExtOk ExtOk ExtOk)
    as (w' & Hrun & _ & Hrep & Hwg & _).
  - vm_compute. reflexivity.
  - vm_compute. reflexivity.
  - vm_compute. reflexivity.
  - exists w'. split; [exact Hrun|]. split; [exact Hrep|exact Hwg].
Defined.

(** C1, where the code goes wrong: [Close] is called while [Listen] is
    blocked in [Recv] (neither result of [Recv] is there); when the
    goroutine of lines 195-198 sends first, [Listen] returns
    [context.Canceled]. *)
Theorem Close_while_receiving_gives_Canceled :
  let w1 := Sample.world Sample.receiving in
  let w2 := Sample.world Sample.closeWhileReceiving in
  run Sample.receiving (boot Sample.service) = Some w1 /\
  threads w1 !! 2%nat = Some (TRecv RRecv) /\
  step (Run 2 ExtOk) w1 = None /\ step (Run 2 (ExtErr "")) w1 = None /\
  run (Sample.closeCancels 3 ++ Sample.runs 1 2) w1 = Some w2 /\
  closing (svc w2) = true /\
  threads w2 !! 0%nat
  = Some (TListen (LReturned AtErrC (Some contextCanceled))).
Proof. vm_compute. repeat split; reflexivity. Qed.

(** The other order: the receive loop sends first, and [Listen] returns
    nil. *)
Lemma Close_while_receiving_gives_nil :
  run Sample.closeRecvFirst (boot Sample.service)
  = Some (Sample.world Sample.closeRecvFirst) /\
  threads (Sample.world Sample.closeRecvFirst) !! 0%nat
  = Some (TListen (LReturned AtErrC None)).
Proof. vm_compute. split; reflexivity. Qed.

(** ** More on sums and on the receiver of [errC] *)

Lemma sumw_lookup2_le f (l : list Thread) i k a b :
  (forall t, 0 <= f t) -> i <> k -> l !! i = Some a -> l !! k = Some b ->
  f a + f b <= sumw f l.
Proof.
  intros Hf. revert i k.
  induction l as [|t l IH]; intros [|i] [|k] Hne Hi Hk; cbn in *;
    try discriminate; try congruence.
  - inversion Hi; subst. pose proof (sumw_lookup_le f l k b Hf Hk). lia.
  - inversion Hk; subst. pose proof (sumw_lookup_le f l i a Hf Hi). lia.
  - assert (i <> k) by congruence.
    specialize (IH i k ltac:(assumption) Hi Hk). specialize (Hf t). lia.
Qed.

Lemma receiver_exists l k :
  l !! k = Some (TListen (LListenTasks TRecvErrC)) -> is_Some (receiver l).
Proof.
  revert k. induction l as [|t l IH]; intros [|k] H; cbn in H; try discriminate.
  - inversion H; subst. cbn. eexists; reflexivity.
  - destruct (IH _ H) as [k' Hk']. cbn.
    destruct t as [pc| | | |]; try (rewrite Hk'; cbn; eexists; reflexivity).
    destruct pc as [ | | | | | | |pc| ];
      try (rewrite Hk'; cbn; eexists; reflexivity).
    destruct pc; try (rewrite Hk'; cbn; eexists; reflexivity).
    eexists; reflexivity.
Qed.

(** With at most one call of [Listen] under way, the receiver of [errC]
    is the one goroutine parked at line 216. *)
Lemma receiver_unique l k :
  sumw l_open l <= 1 ->
  l !! k = Some (TListen (LListenTasks TRecvErrC)) -> receiver l = Some k.
Proof.
  intros Hle Hk. destruct (receiver_exists l k Hk) as [k' Hk'].
  rewrite Hk'. f_equal. apply receiver_Some in Hk'.
  destruct (decide (k' = k)) as [|Hne]; [assumption|].
  pose proof (sumw_lookup2_le l_open l k' k _ _ l_open_nonneg Hne Hk' Hk) as H2.
  cbn in H2. lia.
Qed.

Lemma receiver_None l : sumw l_open l = 0 -> receiver l = None.
Proof.
  intros H0. destruct (receiver l) as [k|] eqn:Hk; [|reflexivity].
  apply receiver_Some in Hk.
  pose proof (sumw_lookup_le l_open l k _ l_open_nonneg Hk) as Hle.
  cbn in Hle. lia.
Qed.

Lemma count_isErrC tr : count isErrC tr = Z.of_nat (length (reported tr)).
Proof.
  induction tr as [|e tr IH]; [reflexivity|].
  destruct e; cbn [count reported isErrC length]; lia.
Qed.

Lemma In_reported v tr : In (EvErrC v) tr -> In v (reported tr).
Proof.
  induction tr as [|e tr IH]; intros H; [contradiction|].
  destruct H as [->|H]; [left; reflexivity|].
  destruct e; cbn; auto.
Qed.

Lemma sumw_transitioned l :
  sumw transitioned l = sumw l_open l + sumw l_early l + sumw l_errc l.
Proof.
  induction l as [|t l IH]; cbn; [reflexivity|].
  unfold transitioned at 1. lia.
Qed.

(** In a reachable world at most one value was received from [errC]. *)
Lemma reported_once w : reachable w -> (length (reported (trace w)) <= 1)%nat.
Proof.
  intros Hr. pose proof (reachable_Inv w Hr)
    as [Iwg Iadds Igos Idexec Idrecv Iml Igate Ierrc Icancel Istored Iconn
          Ithreads].
  nonneg w. rewrite count_isErrC in Ierrc.
  destruct (isListening (svc w)); lia.
Qed.

(** A call of [Listen] that returned from line 216 returned the one value
    received from [errC]. *)
Lemma returned_is_reported w k v :
  reachable w ->
  threads w !! k = Some (TListen (LReturned AtErrC v)) ->
  reported (trace w) = [v].
Proof.
  intros Hr Hk. pose proof (reported_once w Hr) as Hlen.
  pose proof (reachable_Inv w Hr)
    as [Iwg Iadds Igos Idexec Idrecv Iml Igate Ierrc Icancel Istored Iconn
          Ithreads].
  pose proof (Forall_lookup_1 _ _ _ _ Ithreads Hk) as Hin. cbn in Hin.
  apply In_reported in Hin.
  destruct (reported (trace w)) as [|v1 [|v2 rest]]; cbn in *.
  - contradiction.
  - destruct Hin as [->|[]]. reflexivity.
  - lia.
Qed.

(** C9: in every reachable world at most one value was ever received from
    [errC], and a call of [Listen] that returned from line 216 returned
    that value.  While [Listen] waits at line 216, whichever of the two
    goroutines is ready to send first gets its send through, and [Listen]
    returns its value; once [Listen] has returned, a send on [errC] never
    happens. *)
Theorem Listen_reports_once w :
  reachable w ->
  (length (reported (trace w)) <= 1)%nat /\
  (forall k v,
      threads w !! k = Some (TListen (LReturned AtErrC v)) ->
      reported (trace w) = [v]) /\
  (forall k i v x,
      crashed w = false ->
      threads w !! k = Some (TListen (LListenTasks TRecvErrC)) ->
      threads w !! i = Some (TRecv (RSend v)) \/
      (threads w !! i = Some (TWatch WSend) /\ v = Some contextCanceled) ->
      exists w',
        step (Run i x) w = Some w' /\
        threads w' !! k = Some (TListen (LReturned AtErrC v)) /\
        reported (trace w') = [v]) /\
  (forall k i v x,
      threads w !! k = Some (TListen (LReturned AtErrC v)) ->
      (exists v', threads w !! i = Some (TRecv (RSend v'))) \/
      threads w !! i = Some (TWatch WSend) ->
      step (Run i x) w = None).
Proof.
  intros Hr. split; [exact (reported_once w Hr)|].
  split; [intros k v; exact (returned_is_reported w k v Hr)|].
  pose proof (reachable_Inv w Hr)
    as [Iwg Iadds Igos Idexec Idrecv Iml Igate Ierrc Icancel Istored Iconn
          Ithreads]. nonneg w.
  split.
  - intros k i v x Hcr Hk Hi.
    pose proof (sumw_lookup_le l_open _ k _ l_open_nonneg Hk) as Hopen.
    cbn in Hopen.
    assert (Hgate : sumw l_open (threads w) = 1 /\ sumw l_errc (threads w) = 0)
      by (destruct (isListening (svc w)); lia).
    assert (Hrecv : receiver (threads w) = Some k)
      by (apply receiver_unique; [lia|exact Hk]).
    assert (Hnone : reported (trace w) = []).
    { rewrite count_isErrC in Ierrc.
      destruct (reported (trace w)); [reflexivity|cbn in Ierrc; lia]. }
    assert (Hlt : (k < length (threads w))%nat)
      by (eapply lookup_lt_Some; eassumption).
    destruct Hi as [Hi|[Hi ->]].
    + eexists. split.
      * unfold step. rewrite Hcr, Hi. cbn. unfold sendErrC. rewrite Hrecv.
        reflexivity.
      * cbn. rewrite Hnone. split; [|reflexivity].
        apply list_lookup_insert_eq. rewrite length_insert. exact Hlt.
    + eexists. split.
      * unfold step. rewrite Hcr, Hi. cbn. unfold sendErrC. rewrite Hrecv.
        reflexivity.
      * cbn. rewrite Hnone. split; [|reflexivity].
        apply list_lookup_insert_eq. rewrite length_insert. exact Hlt.
  - intros k i v x Hk Hi.
    pose proof (sumw_lookup_le l_errc _ k _ l_errc_nonneg Hk) as Herrc.
    cbn in Herrc.
    assert (Hopen : sumw l_open (threads w) = 0)
      by (destruct (isListening (svc w)); lia).
    apply receiver_None in Hopen.
    unfold step. destruct (crashed w); [reflexivity|].
    destruct Hi as [[v' Hi]|Hi]; rewrite Hi; cbn; unfold sendErrC;
      rewrite Hopen; reflexivity.
Qed.

Lemma Listen_reports_once_witness :
  (length (reported (trace (Sample.world Sample.closeWhileReceiving))) <= 1)%nat /\
  reported (trace (Sample.world Sample.closeWhileReceiving)) = [Some contextCanceled] /\
  step (Run 2 (ExtErr "")) (Sample.world Sample.closeWhileReceiving)
  = Some (goto 2 (TRecv (RDone rpcCanceled)) (Sample.world Sample.closeWhileReceiving)).
Proof.
  destruct (Listen_reports_once (Sample.world Sample.closeWhileReceiving))
    as (Hlen & Hret & _ & _).
  - apply (reachable_sample Sample.closeWhileReceiving). vm_compute. reflexivity.
  - split; [exact Hlen|]. split; [|vm_compute; reflexivity].
    apply (Hret 0%nat). vm_compute. reflexivity.
Defined.

(** ** The gate of [Listen] *)

(** Running a goroutine of a live process is running its next
    statement. *)
Lemma step_Run w i t x :
  crashed w = false -> threads w !! i = Some t ->
  step (Run i x) w = runThread i t x w.
Proof. intros Hcr Hi. unfold step. rewrite Hcr, Hi. reflexivity. Qed.

(** Taking and releasing [ml] leaves the service as it was. *)
Lemma relock_ml s : ml s = false -> set_ml false (set_ml true s) = s.
Proof. destruct s. cbn. intros ->. reflexivity. Qed.

(** A call of [Listen] that gets [ml] while the flag is set returns
    [errAlreadyListening]; nothing but its own program counter has
    changed when it returns. *)
Lemma Listen_rejected_run w k task tasks x1 x2 x3 :
  crashed w = false ->
  threads w !! k = Some (TListen (LLock task tasks)) ->
  ml (svc w) = false ->
  isListening (svc w) = true ->
  run [Run k x1; Run k x2; Run k x3] w
  = Some (goto k (TListen (LReturned AtGate (Some errAlreadyListening))) w).
Proof.
  intros Hcr Hk Hml Hlis.
  assert (Hlt : (k < length (threads w))%nat)
    by (eapply lookup_lt_Some; eassumption).
  cbn [run].
  rewrite (step_Run w k _ x1 Hcr Hk). cbn [runThread Listen]. rewrite Hml.
  erewrite step_Run; [|exact Hcr|apply list_lookup_insert_eq; exact Hlt].
  cbn [runThread Listen]. cbn [goto with_svc set_threads svc set_ml isListening].
  rewrite Hlis.
  erewrite step_Run;
    [|exact Hcr
     |apply list_lookup_insert_eq; cbn; rewrite length_insert; exact Hlt].
  cbn [runThread Listen].
  unfold goto, with_svc, set_threads. cbn.
  rewrite !list_insert_insert_eq, (relock_ml _ Hml). reflexivity.
Qed.

(** C5: in every reachable world at most one call of [Listen] has made
    the transition of the flag, and exactly one has as soon as the flag
    is set; a call that was rejected is at line 165 or has returned
    [errAlreadyListening].  A call that gets [ml] while the flag is set
    runs to that return, and then the world differs from the one before
    only in the program counter of that call: no dispatch, no other
    change. *)
Theorem Listen_twice w :
  reachable w ->
  sumw transitioned (threads w) <= 1 /\
  (isListening (svc w) = true -> sumw transitioned (threads w) = 1) /\
  (forall k t,
      threads w !! k = Some t -> rejected t = 1 ->
      sumw transitioned (threads w) = 1 /\
      (t = TListen LUnlockErr \/
       t = TListen (LReturned AtGate (Some errAlreadyListening)))) /\
  (forall k task tasks x1 x2 x3,
      crashed w = false ->
      threads w !! k = Some (TListen (LLock task tasks)) ->
      ml (svc w) = false ->
      isListening (svc w) = true ->
      run [Run k x1; Run k x2; Run k x3] w
      = Some (goto k (TListen (LReturned AtGate (Some errAlreadyListening))) w)).
Proof.
  intros Hr.
  pose proof (reachable_Inv w Hr)
    as [Iwg Iadds Igos Idexec Idrecv Iml Igate Ierrc Icancel Istored Iconn
          Ithreads].
  nonneg w. rewrite sumw_transitioned.
  split; [destruct (isListening (svc w)); lia|].
  split; [intros Hlis; rewrite Hlis in Igate; lia|].
  split.
  - intros k t Hk Hrej.
    pose proof (sumw_lookup_le rejected _ k _ rejected_nonneg Hk) as Hle.
    split; [destruct (isListening (svc w)); lia|].
    pose proof (Forall_lookup_1 _ _ _ _ Ithreads Hk) as Hok.
    destruct t as [pc| | | |]; cbn in Hrej; try lia.
    destruct pc; cbn in Hrej; try lia.
    + left; reflexivity.
    + destruct site; cbn in Hrej; try lia. cbn in Hok. subst. right; reflexivity.
  - intros k task tasks x1 x2 x3. apply Listen_rejected_run.
Qed.

Lemma Listen_twice_witness :
  sumw transitioned (threads (Sample.world Sample.listenTwice)) = 1 /\
  run (Sample.runs 3 3) (Sample.world (Sample.listening ++ [CallListen Sample.sum []]))
  = Some (goto 3 (TListen (LReturned AtGate (Some errAlreadyListening)))
            (Sample.world (Sample.listening ++ [CallListen Sample.sum []]))).
Proof.
  split.
  - destruct (Listen_twice (Sample.world Sample.listenTwice)) as (_ & Hone & _).
    + apply (reachable_sample Sample.listenTwice). vm_compute. reflexivity.
    + apply Hone. vm_compute. reflexivity.
  - destruct (Listen_twice (Sample.world (Sample.listening ++ [CallListen Sample.sum []])))
      as (_ & _ & _ & Hrun).
    + apply (reachable_sample (Sample.listening ++ [CallListen Sample.sum []])).
      vm_compute. reflexivity.
    + apply (Hrun 3%nat Sample.sum []); vm_compute; reflexivity.
Defined.

(** ** The in-flight counter *)

(** An execution in flight is never blocked; the statement it runs brings
    it closer to its end, and it is the deferred [Done], which takes one
    off the counter, exactly when the execution ends with it. *)
Lemma executeTask_step w j pc x :
  crashed w = false ->
  threads w !! j = Some (TExec pc) ->
  exec_live (TExec pc) = 1 ->
  exists w' pc',
    step (Run j x) w = Some w' /\
    threads w' !! j = Some (TExec pc') /\
    (execLeft pc' < execLeft pc)%nat /\
    count isDoneExec (trace w')
    = count isDoneExec (trace w) + exec_ended (TExec pc') /\
    gracefulWait (svc w') = gracefulWait (svc w) - exec_ended (TExec pc') /\
    count isAdd (trace w') = count isAdd (trace w) /\
    count isReply (trace w') <= count isReply (trace w) + 1.
Proof.
  intros Hcr Hj Hlive.
  assert (Hlt : (j < length (threads w))%nat)
    by (eapply lookup_lt_Some; eassumption).
  rewrite (step_Run w j _ x Hcr Hj).
  destruct pc as [data|data|data taskable|data key out|data err|data p|data|data];
    cbn in Hlive; try lia; cbn [runThread executeTask].
  - destruct (getTaskableByName _ _); do 2 eexists;
      (split; [reflexivity|]); cbn;
      (split; [apply list_lookup_insert_eq; exact Hlt|]);
      repeat split; cbn; lia.
  - do 2 eexists. split; [reflexivity|]. cbn.
    split; [apply list_lookup_insert_eq; exact Hlt|]. repeat split; cbn; lia.
  - destruct (Execute taskable data); do 2 eexists;
      (split; [reflexivity|]); cbn;
      (split; [apply list_lookup_insert_eq; exact Hlt|]);
      repeat split; cbn; lia.
  - destruct x; cbn [reply]; do 2 eexists;
      (split; [reflexivity|]); cbn;
      (split; [apply list_lookup_insert_eq; exact Hlt|]);
      repeat split; cbn; lia.
  - do 2 eexists. split; [reflexivity|]. cbn.
    split; [apply list_lookup_insert_eq; exact Hlt|]. repeat split; cbn; lia.
  - destruct p; do 2 eexists;
      (split; [reflexivity|]); cbn;
      (split; [apply list_lookup_insert_eq; exact Hlt|]);
      repeat split; cbn; lia.
Qed.

(** C7: in every reachable world the counter is the number of [Add]s less
    the number of [Done]s, and it is the number of executions in flight
    plus one while the receive loop holds the [Add] of line 202 for the
    message it waits for or hands over: every [Add] was followed by the
    dispatch of an execution or by the [Done] of line 205, so that the
    [Add] of an execution is there before the execution is.  Every
    execution dispatched is in flight or has ended, and the ended ones
    are as many as the deferred [Done]s.  An execution in flight always
    has a next statement, whatever the handler and the reply do, and that
    statement is the deferred [Done] exactly when it is the last. *)
Theorem counter_matched w :
  reachable w ->
  gracefulWait (svc w)
  = count isAdd (trace w) - count isDoneRecv (trace w)
    - count isDoneExec (trace w) /\
  gracefulWait (svc w) = sumw recv_holds (threads w) + inFlight w /\
  0 <= sumw recv_holds (threads w) <= 1 /\ 0 <= inFlight w /\
  count isAdd (trace w)
  = count isGo (trace w) + count isDoneRecv (trace w)
    + sumw recv_holds (threads w) /\
  (forall i data,
      threads w !! i = Some (TRecv (RGo data)) ->
      count isGo (trace w) + count isDoneRecv (trace w)
      < count isAdd (trace w)) /\
  count isGo (trace w) = inFlight w + sumw exec_ended (threads w) /\
  count isDoneExec (trace w) = sumw exec_ended (threads w) /\
  (forall j pc x,
      crashed w = false ->
      threads w !! j = Some (TExec pc) ->
      exec_live (TExec pc) = 1 ->
      exists w' pc',
        step (Run j x) w = Some w' /\
        threads w' !! j = Some (TExec pc') /\
        (execLeft pc' < execLeft pc)%nat /\
        count isDoneExec (trace w')
        = count isDoneExec (trace w) + exec_ended (TExec pc') /\
        gracefulWait (svc w') = gracefulWait (svc w) - exec_ended (TExec pc') /\
        count isAdd (trace w') = count isAdd (trace w) /\
        count isReply (trace w') <= count isReply (trace w) + 1).
Proof.
  intros Hr.
  pose proof (reachable_Inv w Hr)
    as [Iwg Iadds Igos Idexec Idrecv Iml Igate Ierrc Icancel Istored Iconn
          Ithreads].
  nonneg w. unfold inFlight.
  assert (Hholds : sumw recv_holds (threads w)
                   <= sumw recv_active (threads w) + sumw recv_over (threads w)).
  { clear. induction (threads w) as [|t l IH]; cbn; [lia|].
    destruct t as [| |pc| |]; cbn; try lia. destruct pc; cbn; lia. }
  assert (Hone : sumw recv_holds (threads w) <= 1)
    by (destruct (isListening (svc w)); lia).
  repeat split; try lia.
  - intros i data Hi.
    pose proof (sumw_lookup_le recv_holds _ i _ recv_holds_nonneg Hi) as Hle.
    cbn in Hle. lia.
  - intros j pc x. apply executeTask_step.
Qed.

Lemma counter_matched_witness :
  gracefulWait (svc (Sample.world (Sample.closeWhileExecuting ++ Sample.drained)))
  = count isAdd (trace (Sample.world (Sample.closeWhileExecuting ++ Sample.drained)))
    - count isDoneRecv (trace (Sample.world (Sample.closeWhileExecuting ++ Sample.drained)))
    - count isDoneExec (trace (Sample.world (Sample.closeWhileExecuting ++ Sample.drained)))
  /\
  exists w' pc',
    step (Run 3 ExtOk) (Sample.world Sample.closeWhileExecuting) = Some w' /\
    threads w' !! 3%nat = Some (TExec pc').
Proof.
  split.
  - apply (counter_matched (Sample.world (Sample.closeWhileExecuting ++ Sample.drained))).
    apply (reachable_sample (Sample.closeWhileExecuting ++ Sample.drained)).
    vm_compute. reflexivity.
  - destruct (counter_matched (Sample.world Sample.closeWhileExecuting))
      as (_ & _ & _ & _ & _ & _ & _ & _ & Hstep).
    + apply (reachable_sample Sample.closeWhileExecuting). vm_compute. reflexivity.
    + destruct (Hstep 3%nat (EStart Sample.sumRequest) ExtOk)
        as (w' & pc' & Hw' & Hpc' & _).
      * vm_compute. reflexivity.
      * vm_compute. reflexivity.
      * reflexivity.
      * exists w', pc'. split; assumption.
Defined.

(** ** [Close] *)

(** C10, as stated, fails: [Listen] stored [s.cancel] at line 185 and
    then did not get its stream at line 187; the task stream was never
    opened, and [Close] calls a cancel function that is not nil. *)
Lemma Close_before_stream_cex :
  ~ (forall w i x,
        reachable w ->
        sumw streamOpened (threads w) = 0 ->
        threads w !! i = Some (TClose CCancel) ->
        step (Run i x) w = Some (goto i (TClose CUnlockPanic) w)).
Proof.
  intros H.
  pose (acts := CallListen Sample.sum [] :: Sample.runs 0 9
                ++ [Run 0 (ExtErr "unavailable")] ++ CallClose :: Sample.runs 1 2).
  specialize (H (Sample.world acts) 1%nat ExtOk).
  assert (Hr : reachable (Sample.world acts))
    by (apply (reachable_sample acts); vm_compute; reflexivity).
  specialize (H Hr ltac:(vm_compute; reflexivity) ltac:(vm_compute; reflexivity)).
  vm_compute in H. discriminate H.
Qed.

(** C10, amended: [s.cancel] is nil exactly as long as no call of
    [Listen] has run line 185 of [listenTasks], the line before the one
    that opens the stream.  [Close] at line 263 panics when [s.cancel]
    is nil (the deferred [Unlock] runs, and the call ends in the panic),
    and cancels the context and goes on to wait when it is not. *)
Theorem Close_needs_cancel w i x :
  reachable w ->
  crashed w = false ->
  threads w !! i = Some (TClose CCancel) ->
  (cancel (svc w) = None <-> sumw past185 (threads w) = 0) /\
  (sumw past185 (threads w) = 0 ->
   exists w',
     run [Run i x; Run i x] w = Some w' /\
     threads w' !! i = Some (TClose CPanicked) /\
     count isCancel (trace w') = count isCancel (trace w)) /\
  (0 < sumw past185 (threads w) ->
   step (Run i x) w
   = Some (emit EvCancel (goto i (TClose CWait) (set_ctxDone true w)))).
Proof.
  intros Hr Hcr Hi.
  pose proof (reachable_Inv w Hr)
    as [Iwg Iadds Igos Idexec Idrecv Iml Igate Ierrc Icancel Istored Iconn
          Ithreads].
  assert (Hlt : (i < length (threads w))%nat)
    by (eapply lookup_lt_Some; eassumption).
  split; [|split].
  - destruct (cancel (svc w)); split; intros; try congruence; lia.
  - intros H0. destruct (cancel (svc w)) eqn:Hc; [lia|].
    eexists. split.
    + cbn [run]. rewrite (step_Run w i _ x Hcr Hi). cbn [runThread Close].
      rewrite Hc.
      erewrite step_Run; [|exact Hcr|apply list_lookup_insert_eq; exact Hlt].
      cbn [runThread Close]. reflexivity.
    + cbn. split; [|reflexivity].
      apply list_lookup_insert_eq. rewrite length_insert. exact Hlt.
  - intros Hpos. destruct (cancel (svc w)) as [[]|] eqn:Hc; [|lia].
    rewrite (step_Run w i _ x Hcr Hi). cbn [runThread Close]. rewrite Hc.
    reflexivity.
Qed.

Lemma Close_needs_cancel_witness :
  (exists w',
      run [Run 0 ExtOk; Run 0 ExtOk] (Sample.world (CallClose :: Sample.runs 0 2))
      = Some w' /\
      threads w' !! 0%nat = Some (TClose CPanicked)) /\
  step (Run 3 ExtOk) (Sample.world (Sample.receiving ++ CallClose :: Sample.runs 3 2))
  = Some (emit EvCancel
            (goto 3 (TClose CWait)
               (set_ctxDone true
                  (Sample.world (Sample.receiving ++ CallClose :: Sample.runs 3 2))))).
Proof.
  split.
  - destruct (Close_needs_cancel (Sample.world (CallClose :: Sample.runs 0 2)) 0 ExtOk)
      as (_ & Hnil & _).
    + apply (reachable_sample (CallClose :: Sample.runs 0 2)).
      vm_compute. reflexivity.
    + vm_compute. reflexivity.
    + vm_compute. reflexivity.
    + destruct Hnil as (w' & Hrun & Hpc & _); [vm_compute; reflexivity|].
      exists w'. split; assumption.
  - apply (Close_needs_cancel
             (Sample.world (Sample.receiving ++ CallClose :: Sample.runs 3 2)) 3 ExtOk).
    + apply (reachable_sample (Sample.receiving ++ CallClose :: Sample.runs 3 2)).
      vm_compute. reflexivity.
    + vm_compute. reflexivity.
    + vm_compute. reflexivity.
    + vm_compute. reflexivity.
Defined.

(** C4, as stated, fails: a message that [Recv] returned before [Close]
    called [s.cancel()] is handed to a new execution after it. *)
Lemma dispatch_after_cancel_cex :
  ~ (forall w a w',
        reachable w ->
        1 <= count isCancel (trace w) ->
        step a w = Some w' ->
        count isGo (trace w') = count isGo (trace w)).
Proof.
  intros H.
  pose (acts := Sample.receiving ++ [ServerSend Sample.sumRequest; Run 2 ExtOk]
                ++ Sample.closeCancels 3).
  specialize (H (Sample.world acts) (Run 2 ExtOk) (Sample.world Sample.dispatchAfterCancel)).
  assert (Hr : reachable (Sample.world acts))
    by (apply (reachable_sample acts); vm_compute; reflexivity).
  specialize (H Hr ltac:(vm_compute; discriminate) ltac:(vm_compute; reflexivity)).
  vm_compute in H. discriminate H.
Qed.

(** Once the receive loop has seen [Recv] fail, a step dispatches
    nothing, and the loop stays where no dispatch is. *)
Lemma no_dispatch_step a w w' :
  Inv w -> 1 <= sumw recv_over (threads w) -> step a w = Some w' ->
  1 <= sumw recv_over (threads w') /\
  count isGo (trace w') = count isGo (trace w).
Proof.
  intros I Hover H. revert I Hover. step_cases H;
    intros [Iwg Iadds Igos Idexec Idrecv Iml Igate Ierrc Icancel Istored Iconn
              Ithreads] Hover;
    match type of Iwg with
    | gracefulWait (svc ?w0) = _ =>
        nonneg w0;
        try (running_with recv_active_nonneg; running_with spawner_nonneg);
        sums; try (split; lia);
        try (destruct (isListening (svc w0)); split; lia)
    end.
Qed.

(** C4, amended: once the receive loop has seen [Recv] fail (which the
    cancellation by [Close] makes it do at its next [Recv] that takes the
    error), no execution is dispatched any more, whatever is left in the
    stream and whatever happens next. *)
Theorem no_dispatch_after_Recv_fails w k pc acts w' :
  reachable w ->
  threads w !! k = Some (TRecv pc) ->
  recv_over (TRecv pc) = 1 ->
  run acts w = Some w' ->
  count isGo (trace w') = count isGo (trace w).
Proof.
  intros Hr Hk Hpc Hrun.
  pose proof (sumw_lookup_le recv_over _ k _ recv_over_nonneg Hk) as Hover.
  rewrite Hpc in Hover. apply reachable_Inv in Hr. clear Hk Hpc.
  revert w Hr Hover Hrun.
  induction acts as [|a acts IH]; intros w I Hover Hrun; cbn in Hrun.
  - inversion Hrun; reflexivity.
  - destruct (step a w) as [w1|] eqn:Hs; [|discriminate].
    destruct (no_dispatch_step a w w1 I Hover Hs) as [Hover1 Hgo].
    rewrite <- Hgo. apply (IH w1); [exact (Inv_step _ _ _ Hs I)|exact Hover1|exact Hrun].
Qed.

Lemma no_dispatch_after_Recv_fails_witness :
  count isGo
    (trace (Sample.world (Sample.receiving ++ Sample.closeCancels 3
                   ++ [Run 2 (ExtErr ""); ServerSend Sample.sumRequest;
                       Run 2 ExtOk; Run 2 ExtOk])))
  = count isGo
      (trace (Sample.world (Sample.receiving ++ Sample.closeCancels 3
                     ++ [Run 2 (ExtErr "")]))).
Proof.
  apply (no_dispatch_after_Recv_fails
           (Sample.world (Sample.receiving ++ Sample.closeCancels 3 ++ [Run 2 (ExtErr "")]))
           2 (RDone rpcCanceled)
           [ServerSend Sample.sumRequest; Run 2 ExtOk; Run 2 ExtOk]).
  - apply (reachable_sample
             (Sample.receiving ++ Sample.closeCancels 3 ++ [Run 2 (ExtErr "")])).
    vm_compute. reflexivity.
  - vm_compute. reflexivity.
  - reflexivity.
  - vm_compute. reflexivity.
Defined.

(** ** What a step does to the other goroutines *)

(** A step that does not run goroutine [j] leaves it where it is, unless
    it is the call of [Listen] parked at line 216 and the step is a send
    on [errC]. *)
Lemma step_other a w w' j t :
  step a w = Some w' ->
  threads w !! j = Some t ->
  (forall x, a <> Run j x) ->
  threads w' !! j = Some t \/
  (t = TListen (LListenTasks TRecvErrC) /\
   exists v, threads w' !! j = Some (TListen (LReturned AtErrC v))).
Proof.
  intros H Hj Hne.
  assert (Hlt : (j < length (threads w))%nat)
    by (eapply lookup_lt_Some; eassumption).
  step_cases H; cbn;
    try (assert (i <> j) by (intros ->; eapply Hne; reflexivity));
    try (left;
         rewrite ?list_lookup_insert_ne by assumption;
         rewrite ?lookup_app_l by assumption;
         assumption).
  all: match goal with
       | Hr : threads ?w0 !! ?k = Some (TListen (LListenTasks TRecvErrC)) |- _ =>
           destruct (decide (k = j)) as [->|Hk];
           [ right; split; [congruence|]; eexists;
             apply list_lookup_insert_eq; rewrite length_insert; assumption
           | left; rewrite !list_lookup_insert_ne by assumption; assumption ]
       end.
Qed.

Lemma classic_run (a : Action) (i : nat) :
  (exists x, a = Run i x) \/ (forall x, a <> Run i x).
Proof.
  destruct a as [| | | |k x]; try (right; intros; discriminate).
  destruct (decide (k = i)) as [->|Hne]; [left; eexists; reflexivity|].
  right. intros x' Heq. inversion Heq. contradiction.
Qed.

(** A goroutine stays on the list, and stays what it is: a call of
    [Close] stays one, an execution stays one. *)
Lemma step_Close a w w' i pc :
  Inv w ->
  step a w = Some w' ->
  threads w !! i = Some (TClose pc) ->
  exists pc',
    threads w' !! i = Some (TClose pc') /\
    (beforeWait pc = true -> beforeWait pc' = false -> closePanics pc' = false ->
     gracefulWait (svc w) = 0) /\
    (beforeWait pc = false -> beforeWait pc' = false) /\
    (closePanics pc' = true ->
     closePanics pc = true \/ cancel (svc w) = None) /\
    (forall r, pc' = CUnlock r \/ pc' = CReturned r ->
       pc = CUnlock r \/ pc = CReturned r \/
       exists c, conn (svc w) = Some c /\
         (closeCalls c <> O -> r = Some ErrClientConnClosing)).
Proof.
  intros I H Hi.
  destruct (classic_run a i) as [[x ->]|Hne].
  - assert (Hlt : (i < length (threads w))%nat)
      by (eapply lookup_lt_Some; eassumption).
    destruct I as [_ _ _ _ _ _ _ _ _ _ (c & Hc & _) _].
    unfold step in H. destruct (crashed w); [discriminate|].
    rewrite Hi in H. cbn [runThread] in H.
    destruct pc; cbn [Close connClose] in H; repeat case_match; simplify_eq;
      eexists; (split; [cbn; apply list_lookup_insert_eq; exact Hlt|]);
      cbn; repeat split; try discriminate; try tauto; try lia;
      try (intros r0 [Hr|Hr]; inversion Hr; subst; tauto);
      try (intros r0 [Hr|Hr]; inversion Hr; subst; right; right;
           eexists; (split; [eassumption|]); cbn; intros; congruence).
    all: intros r0 [Hr|Hr]; inversion Hr; subst; right; right;
      eexists; (split; [reflexivity|]); intros; congruence.
  - destruct (step_other a w w' i _ H Hi Hne) as [Hsame|[Hpark _]];
      [|discriminate].
    exists pc. split; [exact Hsame|]. repeat split; try tauto; try congruence.
Qed.

(** An execution stays one, and one that ended stays ended. *)
Lemma step_Exec a w w' j pc :
  step a w = Some w' ->
  threads w !! j = Some (TExec pc) ->
  exists pc',
    threads w' !! j = Some (TExec pc') /\
    (exec_live (TExec pc) = 0 -> exec_live (TExec pc') = 0).
Proof.
  intros H Hj.
  destruct (classic_run a j) as [[x ->]|Hne].
  - assert (Hlt : (j < length (threads w))%nat)
      by (eapply lookup_lt_Some; eassumption).
    unfold step in H. destruct (crashed w); [discriminate|].
    rewrite Hj in H. cbn [runThread] in H.
    destruct pc; cbn [executeTask] in H; unfold reply in H;
      repeat case_match; simplify_eq;
      eexists; (split; [cbn; apply list_lookup_insert_eq; exact Hlt|]);
      cbn; lia.
  - destruct (step_other a w w' j _ H Hj Hne) as [Hsame|[Hpark _]];
      [|discriminate].
    exists pc. split; [exact Hsame|tauto].
Qed.

(** While a call of [Close] has not come back from [Wait], or once the
    execution has run its deferred [Done]: this is kept by every step. *)
Lemma Close_waits_step a w w' i j pci pcj :
  Inv w ->
  step a w = Some w' ->
  threads w !! i = Some (TClose pci) ->
  threads w !! j = Some (TExec pcj) ->
  beforeWait pci = true \/ closePanics pci = true \/ exec_live (TExec pcj) = 0 ->
  exists pci' pcj',
    threads w' !! i = Some (TClose pci') /\
    threads w' !! j = Some (TExec pcj') /\
    (beforeWait pci' = true \/ closePanics pci' = true \/
     exec_live (TExec pcj') = 0).
Proof.
  intros I H Hi Hj HQ.
  destruct (step_Close a w w' i pci I H Hi) as (pci' & Hi' & Hwait & Hstay & _).
  destruct (step_Exec a w w' j pcj H Hj) as (pcj' & Hj' & Hended).
  exists pci', pcj'. split; [exact Hi'|]. split; [exact Hj'|].
  destruct (beforeWait pci') eqn:Hb'; [left; reflexivity|].
  destruct (closePanics pci') eqn:Hp'; [right; left; reflexivity|].
  right; right.
  destruct HQ as [Hb|[Hp|Hlive]].
  - specialize (Hwait Hb eq_refl eq_refl).
    destruct I as [Iwg _ _ _ _ _ _ _ _ _ _ _].
    pose proof (sumw_nonneg recv_holds (threads w) recv_holds_nonneg).
    pose proof (sumw_lookup_le exec_live _ j _ exec_live_nonneg Hj) as Hle.
    pose proof (exec_live_nonneg (TExec pcj)).
    assert (Hz : exec_live (TExec pcj) = 0) by lia.
    (* the step was the one of [Close], not one of the execution *)
    destruct (classic_run a j) as [[x ->]|Hne].
    + unfold step in H. destruct (crashed w); [discriminate|].
      rewrite Hj in H. cbn [runThread] in H.
      destruct pcj; cbn in Hz; try lia; discriminate H.
    + exact (Hended Hz).
  - destruct pci; cbn in Hp; try discriminate.
    + (* CUnlockPanic goes to CPanicked *)
      destruct (classic_run a i) as [[x ->]|Hne].
      * unfold step in H. destruct (crashed w); [discriminate|].
        rewrite Hi in H. cbn in H. inversion H; subst. cbn in Hi'.
        rewrite list_lookup_insert_eq in Hi'
          by (eapply lookup_lt_Some; eassumption).
        inversion Hi'; subst. discriminate Hp'.
      * destruct (step_other a w w' i _ H Hi Hne) as [Hs|[Hx _]]; [|discriminate].
        rewrite Hs in Hi'. inversion Hi'; subst. discriminate Hp'.
    + destruct (classic_run a i) as [[x ->]|Hne].
      * unfold step in H. destruct (crashed w); [discriminate|].
        rewrite Hi in H. cbn in H. discriminate H.
      * destruct (step_other a w w' i _ H Hi Hne) as [Hs|[Hx _]]; [|discriminate].
        rewrite Hs in Hi'. inversion Hi'; subst. discriminate Hp'.
  - exact (Hended Hlive).
Qed.

(** C3: take a call of [Close] that has not come back from [Wait] (line
    264) and any execution there is, in flight or not.  At [Wait] the
    call is blocked as long as the number of executions in flight is not
    zero.  However the run goes on, when that call of [Close] is past
    [Wait] (about to call [s.conn.Close()], or later) the execution has
    run its deferred [Done]: it has completed and taken its one off the
    counter.  This holds for each of the executions in flight, however
    many.  [Close] then returns what [s.conn.Close()] returned. *)
Theorem Close_waits_for_executions w i j pci pcj acts w' :
  reachable w ->
  threads w !! i = Some (TClose pci) ->
  beforeWait pci = true ->
  threads w !! j = Some (TExec pcj) ->
  run acts w = Some w' ->
  (forall x, pci = CWait -> 0 < inFlight w -> step (Run i x) w = None) /\
  exists pci' pcj',
    threads w' !! i = Some (TClose pci') /\
    threads w' !! j = Some (TExec pcj') /\
    (afterWait pci' = true -> exec_live (TExec pcj') = 0) /\
    (forall r, pci' = CReturned r -> In (EvConnClose r) (trace w')).
Proof.
  intros Hr Hi Hb Hj Hrun.
  assert (Hr' : reachable w') by (eapply reachable_run; eassumption).
  apply reachable_Inv in Hr, Hr'.
  split.
  { intros x -> Hn. destruct Hr as [Iwg _ _ _ _ _ _ _ _ _ _ _].
    pose proof (sumw_nonneg recv_holds (threads w) recv_holds_nonneg).
    unfold inFlight in Hn. unfold step. destruct (crashed w); [reflexivity|].
    rewrite Hi. cbn [runThread Close].
    destruct (Z.eqb_spec (gracefulWait (svc w)) 0); [lia|reflexivity]. }
  assert (HQ : exists pci' pcj',
             threads w' !! i = Some (TClose pci') /\
             threads w' !! j = Some (TExec pcj') /\
             (beforeWait pci' = true \/ closePanics pci' = true \/
              exec_live (TExec pcj') = 0)).
  { assert (HQ0 : beforeWait pci = true \/ closePanics pci = true \/
                  exec_live (TExec pcj) = 0) by (left; exact Hb).
    clear Hb Hr'. revert w pci pcj Hr Hi Hj HQ0 Hrun.
    induction acts as [|a acts IH]; intros w pci pcj I Hi Hj HQ0 Hrun;
      cbn in Hrun.
    - inversion Hrun; subst. eauto 6.
    - destruct (step a w) as [w1|] eqn:Hs; [|discriminate].
      destruct (Close_waits_step a w w1 i j pci pcj I Hs Hi Hj HQ0)
        as (pci1 & pcj1 & Hi1 & Hj1 & HQ1).
      exact (IH w1 pci1 pcj1 (Inv_step _ _ _ Hs I) Hi1 Hj1 HQ1 Hrun). }
  destruct HQ as (pci' & pcj' & Hi' & Hj' & HQ).
  exists pci', pcj'. split; [exact Hi'|]. split; [exact Hj'|]. split.
  - intros Ha. destruct HQ as [Hq|[Hq|Hq]]; [| |exact Hq];
      destruct pci'; discriminate.
  - intros r ->. destruct Hr' as [_ _ _ _ _ _ _ _ _ _ _ Hok].
    exact (Forall_lookup_1 _ _ _ _ Hok Hi').
Qed.

Lemma Close_waits_for_executions_witness :
  step (Run 4 ExtOk) (Sample.world Sample.closeWhileExecuting) = None /\
  exists pci' pcj',
    threads (Sample.world (Sample.closeWhileExecuting ++ Sample.drained)) !! 4%nat
    = Some (TClose pci') /\
    threads (Sample.world (Sample.closeWhileExecuting ++ Sample.drained)) !! 3%nat
    = Some (TExec pcj') /\
    (afterWait pci' = true -> exec_live (TExec pcj') = 0) /\
    (forall r, pci' = CReturned r ->
       In (EvConnClose r)
          (trace (Sample.world (Sample.closeWhileExecuting ++ Sample.drained)))).
Proof.
  destruct (Close_waits_for_executions
              (Sample.world Sample.closeWhileExecuting) 4 3
              CWait (EStart Sample.sumRequest) Sample.drained
              (Sample.world (Sample.closeWhileExecuting ++ Sample.drained)))
    as [Hblocked Hdone].
  - apply (reachable_sample Sample.closeWhileExecuting). vm_compute. reflexivity.
  - vm_compute. reflexivity.
  - reflexivity.
  - vm_compute. reflexivity.
  - vm_compute. reflexivity.
  - split; [|exact Hdone].
    apply Hblocked; [reflexivity|vm_compute; reflexivity].
Defined.

(** [s.cancel], once stored, stays stored, and the connection only
    counts more calls of [Close]. *)
Lemma step_cancel_conn a w w' c :
  step a w = Some w' ->
  cancel (svc w) <> None ->
  conn (svc w) = Some c ->
  cancel (svc w') <> None /\
  exists c', conn (svc w') = Some c' /\ (closeCalls c <= closeCalls c')%nat.
Proof.
  intros H Hcan Hconn. step_cases H; cbn in *; simplify_eq;
    (split; [congruence|]); eexists; (split; [eassumption || reflexivity|]);
    cbn; lia.
Qed.

(** A call of [Close] that returned stays returned. *)
Lemma returned_stays a w w' i r :
  step a w = Some w' ->
  threads w !! i = Some (TClose (CReturned r)) ->
  threads w' !! i = Some (TClose (CReturned r)).
Proof.
  intros H Hi. destruct (classic_run a i) as [[x ->]|Hne].
  - unfold step in H. destruct (crashed w); [discriminate|].
    rewrite Hi in H. discriminate H.
  - destruct (step_other a w w' i _ H Hi Hne) as [Hs|[Hx _]];
      [exact Hs|discriminate].
Qed.

(** C2, as stated, fails: [Close] is called twice, one call after the
    other; [s.cancel()] and [s.conn.Close()] are both called twice, and
    the second call returns [ErrClientConnClosing] where the first
    returned nil. *)
Lemma Close_twice_cex :
  ~ (forall w i j r1 r2,
        reachable w -> i <> j ->
        threads w !! i = Some (TClose (CReturned r1)) ->
        threads w !! j = Some (TClose (CReturned r2)) ->
        count isCancel (trace w) <= 1 /\
        count isConnClose (trace w) <= 1 /\
        r2 = r1).
Proof.
  intros H.
  specialize (H (Sample.world Sample.closeTwice) 3%nat 4%nat None
                (Some ErrClientConnClosing)).
  assert (Hr : reachable (Sample.world Sample.closeTwice))
    by (apply (reachable_sample Sample.closeTwice); vm_compute; reflexivity).
  destruct (H Hr ltac:(discriminate) ltac:(vm_compute; reflexivity)
              ltac:(vm_compute; reflexivity)) as (_ & _ & Heq).
  discriminate Heq.
Qed.

Lemma closingAgain_step a w w' i j r1 :
  Inv w -> step a w = Some w' ->
  closingAgain i j r1 w -> closingAgain i j r1 w'.
Proof.
  intros I H (Hcan & (c & Hc & Hcalls) & Hi & pc & Hj & Hpanic & Hret).
  destruct (step_cancel_conn a w w' c H Hcan Hc) as (Hcan' & c' & Hc' & Hle).
  destruct (step_Close a w w' j pc I H Hj) as (pc' & Hj' & _ & _ & Hp & Hr).
  split; [exact Hcan'|].
  split; [exists c'; split; [exact Hc'|lia]|].
  split; [exact (returned_stays a w w' i r1 H Hi)|].
  exists pc'. split; [exact Hj'|]. split.
  - destruct (closePanics pc') eqn:Hp'; [|reflexivity].
    destruct (Hp eq_refl) as [Hx|Hx]; congruence.
  - intros r Hpc'. destruct (Hr r Hpc') as [Hx|[Hx|(c0 & Hc0 & Hx)]].
    + apply Hret. left; exact Hx.
    + apply Hret. right; exact Hx.
    + apply Hx. congruence.
Qed.

(** C2, amended: a call of [Close] made after another call has returned
    does not panic, whatever else happens; it is not a no-op.  It calls
    [s.cancel()] and [s.conn.Close()] again, so that at its return both
    have been called at least twice, and it returns
    [ErrClientConnClosing], the error of closing a connection twice. *)
Theorem Close_again w i r1 acts w' :
  reachable w ->
  threads w !! i = Some (TClose (CReturned r1)) ->
  run (CallClose :: acts) w = Some w' ->
  exists pc,
    threads w' !! length (threads w) = Some (TClose pc) /\
    closePanics pc = false /\
    forall r2,
      pc = CReturned r2 ->
      r2 = Some ErrClientConnClosing /\
      2 <= count isCancel (trace w') /\
      2 <= count isConnClose (trace w').
Proof.
  intros Hr Hi Hrun.
  assert (Hr' : reachable w') by (eapply reachable_run; eassumption).
  pose proof (reachable_Inv w Hr)
    as [Iwg Iadds Igos Idexec Idrecv Iml Igate Ierrc Icancel Istored Iconn
          Ithreads].
  cbn [run] in Hrun. destruct (step CallClose w) as [w0|] eqn:Hs; [|discriminate].
  assert (Hr0 : reachable w0) by exact (reachable_step _ _ _ Hr Hs).
  assert (H0 : closingAgain i (length (threads w)) r1 w0).
  { unfold step in Hs. destruct (crashed w); [discriminate|]. inversion Hs; subst.
    pose proof (sumw_lookup_le cancelled _ i _ cancelled_nonneg Hi) as Hc1.
    pose proof (sumw_lookup_le connClosed _ i _ connClosed_nonneg Hi) as Hc2.
    cbn in Hc1, Hc2. destruct Iconn as (c & Hc & Hcc & _).
    split; [cbn; destruct (cancel (svc w)); [discriminate|lia]|].
    split; [exists c; split; [exact Hc|lia]|].
    split; [cbn; rewrite lookup_app_l by (eapply lookup_lt_Some; eassumption);
            exact Hi|].
    exists CLock. split; [|split; [reflexivity|]].
    - cbn. rewrite lookup_app_r by lia. rewrite Nat.sub_diag. reflexivity.
    - intros r [Hx|Hx]; discriminate. }
  assert (H1 : closingAgain i (length (threads w)) r1 w').
  { apply reachable_Inv in Hr0. clear Hs Hr'. revert w0 Hr0 H0 Hrun.
    induction acts as [|a acts IH]; intros w0 I0 H0 Hrun; cbn in Hrun.
    - inversion Hrun; subst; exact H0.
    - destruct (step a w0) as [w1|] eqn:Hs1; [|discriminate].
      exact (IH w1 (Inv_step _ _ _ Hs1 I0)
               (closingAgain_step _ _ _ _ _ _ I0 Hs1 H0) Hrun). }
  destruct H1 as (_ & _ & Hi' & pc & Hj' & Hpanic & Hret).
  exists pc. split; [exact Hj'|]. split; [exact Hpanic|].
  intros r2 ->. split; [apply Hret; right; reflexivity|].
  pose proof (reachable_Inv w' Hr')
    as [_ _ _ _ _ _ _ _ Icancel' _ (c' & _ & _ & Hcnt') _].
  assert (Hne : i <> length (threads w))
    by (apply lookup_lt_Some in Hi; lia).
  pose proof (sumw_lookup2_le cancelled _ i _ _ _ cancelled_nonneg Hne Hi' Hj') as Hc1.
  pose proof (sumw_lookup2_le connClosed _ i _ _ _ connClosed_nonneg Hne Hi' Hj') as Hc2.
  cbn in Hc1, Hc2. lia.
Qed.

Lemma Close_again_witness :
  exists pc,
    threads (Sample.world Sample.closeTwice) !! 4%nat = Some (TClose pc) /\
    closePanics pc = false /\
    forall r2,
      pc = CReturned r2 ->
      r2 = Some ErrClientConnClosing /\
      2 <= count isCancel (trace (Sample.world Sample.closeTwice)) /\
      2 <= count isConnClose (trace (Sample.world Sample.closeTwice)).
Proof.
  apply (Close_again (Sample.world (Sample.listening ++ Sample.closeReturns 3)) 3 None
           (Sample.runs 4 6)).
  - apply (reachable_sample (Sample.listening ++ Sample.closeReturns 3)).
    vm_compute. reflexivity.
  - vm_compute. reflexivity.
  - vm_compute. reflexivity.
Defined.

(** * More properties *)

(** ** [getTaskableByName] *)

(** X1: the taskable [getTaskableByName] returns has the key asked for,
    and it is the first one of the list that has it: the list is some
    taskables without the key, then it, then the rest. *)
Theorem getTaskableByName_first l key taskable :
  getTaskableByName l key = Some taskable ->
  Key taskable = key /\
  exists before after,
    l = before ++ taskable :: after /\
    Forall (fun t => Key t <> key) before.
Proof.
  induction l as [|t l IH]; cbn; [discriminate|].
  destruct (String.eqb_spec (Key t) key) as [Heq|Hne].
  - intros H. inversion H; subst. split; [reflexivity|].
    exists [], l. split; [reflexivity|constructor].
  - intros H. destruct (IH H) as (Hk & before & after & -> & Hb).
    split; [exact Hk|]. exists (t :: before), after.
    split; [reflexivity|]. constructor; assumption.
Qed.

Lemma getTaskableByName_first_witness :
  Key Sample.sum = "sum" /\
  exists before after,
    [mkTaskable "div" (fun _ => HPanic); Sample.sum] = before ++ Sample.sum :: after /\
    Forall (fun t => Key t <> "sum") before.
Proof.
  apply (getTaskableByName_first
           [mkTaskable "div" (fun _ => HPanic); Sample.sum] "sum" Sample.sum).
  reflexivity.
Defined.

(** X2: [getTaskableByName] returns nil exactly when no taskable of the
    list has the key. *)
Theorem getTaskableByName_None l key :
  getTaskableByName l key = None <-> Forall (fun t => Key t <> key) l.
Proof.
  induction l as [|t l IH]; cbn.
  - split; [constructor|reflexivity].
  - destruct (String.eqb_spec (Key t) key) as [Heq|Hne].
    + split; [discriminate|]. intros H. inversion H; subst. contradiction.
    + rewrite IH. split.
      * intros H. constructor; assumption.
      * intros H. inversion H; assumption.
Qed.

(** X3: with the taskables as [Listen] stores them (the variadic [tasks]
    first, [task] last), a key is looked up in [tasks] first and [task]
    is what is left: [task] is found under its key unless one of [tasks]
    has the same key, and then that one is found. *)
Theorem getTaskableByName_Listen_order task tasks key :
  getTaskableByName (tasks ++ [task]) key
  = match getTaskableByName tasks key with
    | Some taskable => Some taskable
    | None => if String.eqb (Key task) key then Some task else None
    end.
Proof.
  induction tasks as [|t tasks IH]; cbn.
  - destruct (String.eqb (Key task) key); reflexivity.
  - destruct (String.eqb (Key t) key); [reflexivity|exact IH].
Qed.

(** ** The options of [New] *)

Lemma last_cons {A} (a d : A) l : List.last (a :: l) d = List.last l a.
Proof.
  revert a d. induction l as [|b l IH]; intros a d; [reflexivity|].
  change (List.last (a :: b :: l) d) with (List.last (b :: l) d).
  rewrite (IH b d), (IH b a). reflexivity.
Qed.

Lemma applyOptions_fields options : forall s,
  let s' := fold_left (fun s o => applyOption o s) options s in
  endpoint s' = List.last (endpointsOf options) (endpoint s) /\
  token s' = List.last (tokensOf options) (token s) /\
  callTimeout s' = List.last (timeoutsOf options) (callTimeout s) /\
  logOutput s' = List.last (logOutputsOf options) (logOutput s) /\
  dialOptions s'
  = dialOptions s ++ map WithContextDialer (dialersOf options).
Proof.
  induction options as [|o options IH]; intros s; cbn.
  - rewrite app_nil_r. repeat split.
  - specialize (IH (applyOption o s)). cbn in IH.
    destruct IH as (He & Ht & Hc & Hl & Hd).
    rewrite He, Ht, Hc, Hl, Hd.
    unfold endpointsOf, tokensOf, timeoutsOf, logOutputsOf, dialersOf.
    destruct o; cbn [omap applyOption mbind option_bind
                     endpoint token callTimeout logOutput dialOptions
                     set_endpoint set_token set_callTimeout set_logOutput
                     set_dialOptions];
      rewrite ?last_cons; repeat split;
      try (rewrite <- app_assoc; reflexivity).
Qed.

(** X4: the endpoint, the token, the timeout and the log output of the
    service [New] configures are those of the last option of their kind,
    and without such an option the environment variable, ten seconds and
    [ioutil.Discard]: an option overrides the environment, and of two
    options of a kind the later wins. *)
Theorem configure_last_option_wins Getenv options :
  let s := configure Getenv options in
  endpoint s = List.last (endpointsOf options) (Getenv endpointEnv) /\
  token s = List.last (tokensOf options) (Getenv tokenEnv) /\
  callTimeout s = List.last (timeoutsOf options) (10 * Second) /\
  logOutput s = List.last (logOutputsOf options) "ioutil.Discard".
Proof.
  pose proof (applyOptions_fields options
                (mkService (Getenv endpointEnv) (Getenv tokenEnv) None None
                   [WithKeepaliveParams (5 * Minute); WithInsecure]
                   (Second * 10) None false false false false 0 []
                   "ioutil.Discard")) as H.
  cbn zeta in H. fold (configure Getenv options) in H.
  destruct H as (He & Ht & Hc & Hl & _). cbn in He, Ht, Hc, Hl.
  cbn zeta. repeat split; assumption.
Qed.

(** X5: the dial options [New] dials with are the keep-alive of five
    minutes and [WithInsecure], then one context dialer for each
    [DialOption], in the order of the options; no option removes the two
    defaults. *)
Theorem configure_dialOptions Getenv options :
  dialOptions (configure Getenv options)
  = [WithKeepaliveParams (5 * Minute); WithInsecure]
    ++ map WithContextDialer (dialersOf options).
Proof.
  pose proof (applyOptions_fields options
                (mkService (Getenv endpointEnv) (Getenv tokenEnv) None None
                   [WithKeepaliveParams (5 * Minute); WithInsecure]
                   (Second * 10) None false false false false 0 []
                   "ioutil.Discard")) as H.
  cbn zeta in H. fold (configure Getenv options) in H.
  destruct H as (_ & _ & _ & _ & Hd). exact Hd.
Qed.

Lemma applyOptions_rest options : forall s,
  let s' := fold_left (fun s o => applyOption o s) options s in
  taskables s' = taskables s /\ client s' = client s /\ conn s' = conn s.
Proof.
  induction options as [|o options IH]; intros s; cbn; [repeat split|].
  specialize (IH (applyOption o s)). cbn in IH.
  destruct IH as (-> & -> & ->). destruct o; repeat split.
Qed.

(** X6: with an endpoint and a token, [New] dials once, with the timeout,
    endpoint and dial options configured, and returns a service whatever
    the dial gives: with the connection as [conn] and [client] when the
    dial succeeds, with both nil and the error of the dial beside it when
    it fails.  In both cases the service is configured as the options
    say, and idle: nothing listening, nothing closing, no cancel
    function, no taskables, the counter at zero. *)
Theorem New_returns_service Getenv DialContext options :
  let s := configure Getenv options in
  let call := mkDialCall (callTimeout s) (endpoint s) (dialOptions s) in
  endpoint s <> "" -> token s <> "" ->
  exists s',
    New Getenv DialContext options = (Some s', DialContext call, [call]) /\
    (endpoint s' = endpoint s /\ token s' = token s /\
     callTimeout s' = callTimeout s /\ dialOptions s' = dialOptions s /\
     logOutput s' = logOutput s) /\
    (cancel s' = None /\ closing s' = false /\ mc s' = false /\
     isListening s' = false /\ ml s' = false /\ gracefulWait s' = 0 /\
     taskables s' = []) /\
    client s' = conn s' /\
    conn s' = match DialContext call with
              | None => Some (mkClientConn (endpoint s) O)
              | Some _ => None
              end.
Proof.
  intros s call He Ht.
  assert (Hidle : cancel s = None /\ closing s = false /\ mc s = false /\
                  isListening s = false /\ ml s = false /\ gracefulWait s = 0).
  { apply (applyOptions_idle options
             (mkService (Getenv endpointEnv) (Getenv tokenEnv) None None
                [WithKeepaliveParams (5 * Minute); WithInsecure]
                (Second * 10) None false false false false 0 []
                "ioutil.Discard")).
    repeat split. }
  assert (Hrest : taskables s = [] /\ client s = None /\ conn s = None).
  { apply (applyOptions_rest options
             (mkService (Getenv endpointEnv) (Getenv tokenEnv) None None
                [WithKeepaliveParams (5 * Minute); WithInsecure]
                (Second * 10) None false false false false 0 []
                "ioutil.Discard")). }
  destruct Hidle as (? & ? & ? & ? & ? & ?). destruct Hrest as (? & ? & ?).
  unfold New. fold s.
  destruct (String.eqb_spec (endpoint s) ""); [contradiction|].
  destruct (String.eqb_spec (token s) ""); [contradiction|].
  unfold setupServiceClient. fold call.
  destruct (DialContext call); eexists; (split; [reflexivity|]); cbn;
    repeat split; assumption.
Qed.

Lemma New_returns_service_witness :
  exists s',
    New Sample.noEnv (fun _ => Some (errExternal "connection refused"))
      Sample.options
    = (Some s', Some (errExternal "connection refused"),
       [mkDialCall (10 * Second) "localhost:50052"
          [WithKeepaliveParams (5 * Minute); WithInsecure]]) /\
    conn s' = None.
Proof.
  destruct (New_returns_service Sample.noEnv
              (fun _ => Some (errExternal "connection refused"))
              Sample.options)
    as (s' & Hnew & _ & _ & _ & Hconn).
  - discriminate.
  - discriminate.
  - exists s'. split; [exact Hnew|exact Hconn].
Defined.

(** ** The second invariant *)

Lemma in_mc_nonneg t : 0 <= in_mc t.
Proof.
  destruct t as [pc| | | |pc]; cbn; try lia; destruct pc; try lia.
  destruct pc; lia.
Qed.
Lemma past262_nonneg t : 0 <= past262 t.
Proof. destruct t as [| | | |pc]; cbn; try lia; destruct pc; lia. Qed.
Lemma before185_nonneg t : 0 <= before185 t.
Proof.
  destruct t as [pc| | | |]; cbn; try lia; destruct pc; try lia.
  - destruct pc; lia.
  - destruct site; lia.
Qed.
Lemma may_reply_nonneg t : 0 <= may_reply t.
Proof. destruct t as [| | |pc|]; cbn; try lia; destruct pc; lia. Qed.

(** A call of [Listen] that has set the flag has run line 185 or has
    not. *)
Lemma sumw_before_past185 l :
  sumw l_open l + sumw l_early l + sumw l_errc l
  = sumw before185 l + sumw past185 l.
Proof.
  induction l as [|t l IH]; cbn; [reflexivity|].
  assert (l_open t + l_early t + l_errc t = before185 t + past185 t).
  { destruct t as [pc| | | |]; cbn; try lia. destruct pc; cbn; try lia.
    - destruct pc; cbn; lia.
    - destruct site; cbn; lia. }
  lia.
Qed.

Lemma report_ok_mono c t : report_ok c t -> report_ok (c || true) t.
Proof.
  rewrite orb_true_r. destruct t as [pc| |pc| |]; try exact id.
  - destruct pc; try exact id. destruct r; [exact id|reflexivity].
  - destruct pc; try exact id. destruct v; [exact id|reflexivity].
Qed.

Lemma exec_ok_mono e tr t : exec_ok tr t -> exec_ok (e :: tr) t.
Proof.
  destruct t as [| | |pc|]; try exact id.
  destruct pc; cbn; try (intros; right; assumption);
    intros [Hin Hrest]; (split; [right; exact Hin|exact Hrest]).
Qed.

Lemma reply_ok_mono e tr e' : reply_ok tr e' -> reply_ok (e :: tr) e'.
Proof.
  destruct e'; try exact id. cbn.
  intros [Hin Hrest]; (split; [right; exact Hin|exact Hrest]).
Qed.

Lemma Forall_exec_ok_mono e tr l :
  Forall (exec_ok tr) l -> Forall (exec_ok (e :: tr)) l.
Proof.
  intros H. eapply Forall_impl; [exact H|]. intros t. apply exec_ok_mono.
Qed.

Lemma Forall_reply_ok_mono e tr l :
  Forall (reply_ok tr) l -> Forall (reply_ok (e :: tr)) l.
Proof.
  intros H. eapply Forall_impl; [exact H|]. intros t. apply reply_ok_mono.
Qed.

Lemma getTaskableByName_key l key taskable :
  getTaskableByName l key = Some taskable -> Key taskable = key.
Proof.
  induction l as [|t l IH]; cbn; [discriminate|].
  destruct (String.eqb_spec (Key t) key) as [Heq|Hne]; [|exact IH].
  intros H. inversion H; subst. reflexivity.
Qed.

Lemma Forall_report_ok_true c l :
  Forall (report_ok c) l -> Forall (report_ok true) l.
Proof.
  intros H. eapply Forall_impl; [exact H|]. intros t Ht.
  apply (report_ok_mono c t) in Ht. rewrite orb_true_r in Ht. exact Ht.
Qed.

(** [report_ok], [exec_ok] and [reply_ok] after a step. *)
Ltac oks2 :=
  repeat match goal with
    | |- Forall _ (<[_:=_]> _) => apply Forall_insert
    | |- Forall _ (_ ++ _) => apply Forall_app_2
    | |- Forall (exec_ok (_ :: _)) (threads _) => apply Forall_exec_ok_mono
    | |- Forall (reply_ok (_ :: _)) (_ :: _) => apply Forall_cons_2
    | |- Forall (reply_ok (_ :: _)) (trace _) => apply Forall_reply_ok_mono
    | |- Forall (report_ok true) (threads _) =>
        eapply Forall_report_ok_true; eassumption
    | |- Forall _ (threads _) => assumption
    | |- Forall _ (trace _) => assumption
    | |- Forall _ [_] => apply Forall_singleton
    end;
  try exact I; try (left; reflexivity); try reflexivity; try assumption;
  try match goal with
      | Hok : Forall (report_ok _) (threads ?w),
        Hi : threads ?w !! _ = Some _ |- _ =>
          exact (Forall_lookup_1 _ _ _ _ Hok Hi)
      end;
  try match goal with
      | Hok : Forall (exec_ok _) (threads ?w),
        Hi : threads ?w !! _ = Some _ |- _ =>
          let Hold := fresh "Hold" in
          pose proof (Forall_lookup_1 _ _ _ _ Hok Hi) as Hold;
          cbn in Hold |- *; unfold handledBy;
          try match goal with
              | Hg : getTaskableByName _ _ = Some _ |- _ =>
                  apply getTaskableByName_key in Hg
              end;
          intuition eauto
      end.

Lemma Inv2_step a w w' : step a w = Some w' -> Inv w -> Inv2 w -> Inv2 w'.
Proof.
  intros H. step_cases H;
    intros [Iwg Iadds Igos Idexec Idrecv Iml Igate Ierrc Icancel Istored Iconn
              Ithreads]
           [Jmc Jclosing Jctx Jreport Jreplies Jexec Jreply];
    match type of Iwg with
    | gracefulWait (svc ?w0) = _ =>
        nonneg w0;
        pose proof (sumw_nonneg _ (threads w0) in_mc_nonneg);
        pose proof (sumw_nonneg _ (threads w0) past262_nonneg);
        pose proof (sumw_nonneg _ (threads w0) before185_nonneg);
        pose proof (sumw_nonneg _ (threads w0) may_reply_nonneg);
        pose proof (sumw_before_past185 (threads w0));
        try (running_with in_mc_nonneg; running_with past262_nonneg;
             running_with before185_nonneg; running_with cancelled_nonneg;
             running_with l_open_nonneg);
        (constructor; [ | | | | | | ]); sums;
        try lia; try solve [oks2];
        try (destruct (mc (svc w0)); cbn [b2z] in *; lia);
        try (destruct (closing (svc w0)); cbn [b2z] in *; lia);
        try (destruct (ctxDone w0); cbn [b2z] in *; lia);
        try (destruct (cancel (svc w0)); destruct (isListening (svc w0)); lia);
        try (destruct Iconn as (? & ? & _); congruence)
    end.
Qed.

Lemma Inv2_boot s : fresh s -> Inv2 (boot s).
Proof.
  intros (_ & Hcl & Hmc & _).
  constructor; cbn; try reflexivity; try constructor.
  - rewrite Hmc. reflexivity.
  - rewrite Hcl. reflexivity.
Qed.

Lemma Inv2_run acts : forall w w',
  run acts w = Some w' -> Inv w -> Inv2 w -> Inv2 w'.
Proof.
  induction acts as [|a acts IH]; intros w w' H I J; cbn in H.
  - inversion H; subst; exact J.
  - destruct (step a w) as [w1|] eqn:Hs; [|discriminate].
    exact (IH _ _ H (Inv_step _ _ _ Hs I) (Inv2_step _ _ _ Hs I J)).
Qed.

Lemma reachable_Inv2 w : reachable w -> Inv2 w.
Proof.
  intros (s & acts & Hs & H).
  exact (Inv2_run _ _ _ H (Inv_boot _ Hs) (Inv2_boot _ Hs)).
Qed.

(** ** The two mutexes *)

(** X7: [mc] is held by at most one goroutine at a time, in every
    interleaving: the goroutines between [s.mc.Lock()] and
    [s.mc.Unlock()] (lines 185-186 of [listenTasks], lines 262-265 of
    [Close] and its deferred [Unlock], also when [Close] panics) are one
    when [mc] is held and none when it is free; so no two calls of
    [Close] are past line 260 together, and [listenTasks] does not store
    [s.cancel] while a call of [Close] is between its lock and its
    unlock. *)
Theorem mc_mutual_exclusion w :
  reachable w ->
  sumw in_mc (threads w) = b2z (mc (svc w)) /\
  forall i k ti tk,
    threads w !! i = Some ti -> threads w !! k = Some tk ->
    in_mc ti = 1 -> in_mc tk = 1 -> i = k.
Proof.
  intros Hr. pose proof (reachable_Inv2 w Hr) as [Jmc _ _ _ _ _ _].
  split; [exact Jmc|].
  intros i k ti tk Hi Hk Hti Htk.
  destruct (decide (i = k)) as [|Hne]; [assumption|].
  pose proof (sumw_lookup2_le in_mc _ i k _ _ in_mc_nonneg Hne Hi Hk) as Hle.
  destruct (mc (svc w)); cbn in Jmc; lia.
Qed.

Lemma mc_mutual_exclusion_witness :
  sumw in_mc (threads (Sample.world Sample.closeWhileExecuting)) = 1 /\
  mc (svc (Sample.world Sample.closeWhileExecuting)) = true.
Proof.
  destruct (mc_mutual_exclusion (Sample.world Sample.closeWhileExecuting))
    as [Hsum _].
  - apply (reachable_sample Sample.closeWhileExecuting). vm_compute. reflexivity.
  - split; [rewrite Hsum|]; vm_compute; reflexivity.
Defined.

Lemma sumw_in_ml l : sumw in_ml l = sumw ml_setting l + sumw ml_other l.
Proof.
  induction l as [|t l IH]; cbn; [reflexivity|]. unfold in_ml at 1. lia.
Qed.

Lemma in_ml_nonneg t : 0 <= in_ml t.
Proof.
  unfold in_ml. pose proof (ml_setting_nonneg t). pose proof (ml_other_nonneg t).
  lia.
Qed.

(** X8: [ml] is held by at most one call of [Listen] at a time, in every
    interleaving: the calls between lines 163 and 169 (or 165) are one
    when [ml] is held and none when it is free, so the test and the
    setting of [isListening] are never interleaved with those of another
    call. *)
Theorem ml_mutual_exclusion w :
  reachable w ->
  sumw in_ml (threads w) = b2z (ml (svc w)) /\
  forall i k ti tk,
    threads w !! i = Some ti -> threads w !! k = Some tk ->
    in_ml ti = 1 -> in_ml tk = 1 -> i = k.
Proof.
  intros Hr. pose proof (reachable_Inv w Hr) as [_ _ _ _ _ Iml _ _ _ _ _ _].
  rewrite sumw_in_ml. split; [exact Iml|].
  intros i k ti tk Hi Hk Hti Htk.
  destruct (decide (i = k)) as [|Hne]; [assumption|].
  pose proof (sumw_lookup2_le in_ml _ i k _ _ in_ml_nonneg Hne Hi Hk) as Hle.
  rewrite sumw_in_ml in Hle. destruct (ml (svc w)); cbn in Iml; lia.
Qed.

Lemma ml_mutual_exclusion_witness :
  sumw in_ml
    (threads (Sample.world (CallListen Sample.sum [] :: Sample.runs 0 2))) = 1.
Proof.
  destruct (ml_mutual_exclusion
              (Sample.world (CallListen Sample.sum [] :: Sample.runs 0 2)))
    as [Hsum _].
  - apply (reachable_sample (CallListen Sample.sum [] :: Sample.runs 0 2)).
    vm_compute. reflexivity.
  - rewrite Hsum. vm_compute. reflexivity.
Defined.

(** ** One-way flags *)

(** The two flags are set and never cleared. *)
Lemma step_flags a w w' :
  step a w = Some w' ->
  (isListening (svc w) = true -> isListening (svc w') = true) /\
  (closing (svc w) = true -> closing (svc w') = true).
Proof.
  intros H. step_cases H; cbn; split; intros; try assumption;
    try reflexivity; congruence.
Qed.

Lemma run_flags acts : forall w w',
  run acts w = Some w' ->
  (isListening (svc w) = true -> isListening (svc w') = true) /\
  (closing (svc w) = true -> closing (svc w') = true).
Proof.
  induction acts as [|a acts IH]; intros w w' H; cbn in H.
  - inversion H; subst. split; exact id.
  - destruct (step a w) as [w1|] eqn:Hs; [|discriminate].
    destruct (step_flags a w w1 Hs) as [Hl Hc].
    destruct (IH w1 w' H) as [Hl' Hc']. split; auto.
Qed.

(** X9: [Listen] returns nil only after [Close] was called: when a call
    of [Listen] has returned nil, the closing flag is set and some call
    of [Close] has run line 262.  Without [Close], whatever ends the
    stream makes [Listen] return an error. *)
Theorem Listen_nil_means_closing w k site :
  reachable w ->
  threads w !! k = Some (TListen (LReturned site None)) ->
  closing (svc w) = true /\ 1 <= sumw past262 (threads w).
Proof.
  intros Hr Hk.
  pose proof (reachable_Inv2 w Hr) as [_ Jclosing _ Jreport _ _ _].
  pose proof (Forall_lookup_1 _ _ _ _ Jreport Hk) as Hc. cbn in Hc.
  split; [exact Hc|]. rewrite Hc in Jclosing. exact Jclosing.
Qed.

Lemma Listen_nil_means_closing_witness :
  closing (svc (Sample.world Sample.closeRecvFirst)) = true /\
  1 <= sumw past262 (threads (Sample.world Sample.closeRecvFirst)).
Proof.
  apply (Listen_nil_means_closing (Sample.world Sample.closeRecvFirst) 0 AtErrC).
  - apply (reachable_sample Sample.closeRecvFirst). vm_compute. reflexivity.
  - vm_compute. reflexivity.
Defined.

(** X10: a service listens once.  When a call of [Listen] has made the
    transition of the flag, then whatever happens next (the call returns
    with an error, the stream ends, [Close] completes) the flag stays
    set, and a later call of [Listen] that gets [ml] returns
    [errAlreadyListening] and changes nothing else. *)
Theorem Listen_single_use w k0 t0 acts w' :
  reachable w ->
  threads w !! k0 = Some t0 ->
  transitioned t0 = 1 ->
  run acts w = Some w' ->
  isListening (svc w') = true /\
  forall k task tasks x1 x2 x3,
    crashed w' = false ->
    threads w' !! k = Some (TListen (LLock task tasks)) ->
    ml (svc w') = false ->
    run [Run k x1; Run k x2; Run k x3] w'
    = Some (goto k (TListen (LReturned AtGate (Some errAlreadyListening))) w').
Proof.
  intros Hr Hk0 Ht0 Hrun.
  pose proof (reachable_Inv w Hr)
    as [_ _ _ _ _ _ Igate _ _ _ _ _].
  assert (Hlis : isListening (svc w) = true).
  { pose proof (sumw_lookup_le transitioned _ k0 _
                  ltac:(intros t; unfold transitioned;
                        pose proof (l_open_nonneg t);
                        pose proof (l_early_nonneg t);
                        pose proof (l_errc_nonneg t); lia) Hk0) as Hle.
    rewrite sumw_transitioned in Hle.
    destruct (isListening (svc w)); [reflexivity|lia]. }
  destruct (run_flags acts w w' Hrun) as [Hl _]. specialize (Hl Hlis).
  split; [exact Hl|].
  intros k task tasks x1 x2 x3 Hcr Hk Hml.
  exact (Listen_rejected_run w' k task tasks x1 x2 x3 Hcr Hk Hml Hl).
Qed.

Lemma Listen_single_use_witness :
  isListening (svc (Sample.world (Sample.closeAfterFailedOpen
                                  ++ [CallListen Sample.sum []]))) = true /\
  run (Sample.runs 2 3)
    (Sample.world (Sample.closeAfterFailedOpen ++ [CallListen Sample.sum []]))
  = Some (goto 2 (TListen (LReturned AtGate (Some errAlreadyListening)))
            (Sample.world (Sample.closeAfterFailedOpen
                           ++ [CallListen Sample.sum []]))).
Proof.
  destruct (Listen_single_use
              (Sample.world (CallListen Sample.sum [] :: Sample.runs 0 9
                             ++ [Run 0 (ExtErr "unavailable")]))
              0 (TListen (LReturned AtOpen (Some (errExternal "unavailable"))))
              (Sample.closeReturns 1 ++ [CallListen Sample.sum []])
              (Sample.world (Sample.closeAfterFailedOpen
                             ++ [CallListen Sample.sum []])))
    as [Hflag Hrej].
  - apply (reachable_sample (CallListen Sample.sum [] :: Sample.runs 0 9
                             ++ [Run 0 (ExtErr "unavailable")])).
    vm_compute. reflexivity.
  - vm_compute. reflexivity.
  - reflexivity.
  - vm_compute. reflexivity.
  - split; [exact Hflag|].
    apply (Hrej 2%nat Sample.sum []); vm_compute; reflexivity.
Defined.

(** ** Replies *)



(** ** The taskables *)

(** With a receive loop there, a step leaves the taskables alone, and
    the loop stays. *)
Lemma taskables_step a w w' :
  Inv w ->
  1 <= sumw recv_active (threads w) + sumw recv_over (threads w) ->
  step a w = Some w' ->
  1 <= sumw recv_active (threads w') + sumw recv_over (threads w') /\
  taskables (svc w') = taskables (svc w).
Proof.
  intros I Hrecv H. revert I Hrecv. step_cases H;
    intros [Iwg Iadds Igos Idexec Idrecv Iml Igate Ierrc Icancel Istored Iconn
              Ithreads] Hrecv;
    match type of Iwg with
    | gracefulWait (svc ?w0) = _ =>
        nonneg w0; try running_with spawner_nonneg;
        sums; try (split; [lia|reflexivity]);
        try (destruct (isListening (svc w0)); lia)
    end.
Qed.

(** X12: the taskables are fixed before anything is received: once the
    receive loop exists, the taskables of the service never change,
    whatever happens next, so every execution looks its task up in the
    list the one call of [Listen] stored. *)
Theorem taskables_fixed w k pc acts w' :
  reachable w ->
  threads w !! k = Some (TRecv pc) ->
  run acts w = Some w' ->
  taskables (svc w') = taskables (svc w).
Proof.
  intros Hr Hk Hrun.
  assert (Hrecv : 1 <= sumw recv_active (threads w) + sumw recv_over (threads w)).
  { pose proof (sumw_lookup_le recv_active _ k _ recv_active_nonneg Hk).
    pose proof (sumw_lookup_le recv_over _ k _ recv_over_nonneg Hk).
    assert (recv_active (TRecv pc) + recv_over (TRecv pc) = 1)
      by (destruct pc; reflexivity).
    lia. }
  apply reachable_Inv in Hr. clear Hk. revert w Hr Hrecv Hrun.
  induction acts as [|a acts IH]; intros w I Hrecv Hrun; cbn in Hrun.
  - inversion Hrun; reflexivity.
  - destruct (step a w) as [w1|] eqn:Hs; [|discriminate].
    destruct (taskables_step a w w1 I Hrecv Hs) as [Hrecv1 Heq].
    rewrite <- Heq.
    exact (IH w1 (Inv_step _ _ _ Hs I) Hrecv1 Hrun).
Qed.

Lemma taskables_fixed_witness :
  taskables (svc (Sample.world (Sample.closeWhileExecuting ++ Sample.drained)))
  = taskables (svc (Sample.world Sample.listening)).
Proof.
  apply (taskables_fixed (Sample.world Sample.listening) 2 RAdd
           (Run 2 ExtOk
            :: [ServerSend Sample.sumRequest; Run 2 ExtOk; Run 2 ExtOk; Run 2 ExtOk]
            ++ Sample.closeCancels 4 ++ Sample.drained)).
  - apply (reachable_sample Sample.listening). vm_compute. reflexivity.
  - vm_compute. reflexivity.
  - vm_compute. reflexivity.
Defined.

(** ** [Close] and the stream *)

Lemma sumw_le f g l : (forall t, f t <= g t) -> sumw f l <= sumw g l.
Proof.
  intros Hfg. induction l as [|t l IH]; cbn; [lia|]. specialize (Hfg t). lia.
Qed.

Lemma connClosed_le_cancelled t : connClosed t <= cancelled t.
Proof. destruct t as [| | | |pc]; cbn; try lia. destruct pc; lia. Qed.

Lemma cancelled_le_past262 t : cancelled t <= past262 t.
Proof. destruct t as [| | | |pc]; cbn; try lia. destruct pc; lia. Qed.

(** X13: [Close] closes the connection only after it has signalled the
    shutdown: in every reachable world [s.conn.Close()] was called at
    most as often as [s.cancel()], and once either was called the
    closing flag is set, the context of the stream is cancelled and
    [s.cancel] is not nil. *)
Theorem Close_signals_before_closing w :
  reachable w ->
  count isConnClose (trace w) <= count isCancel (trace w) /\
  (1 <= count isCancel (trace w) ->
   closing (svc w) = true /\ ctxDone w = true /\ cancel (svc w) <> None).
Proof.
  intros Hr.
  pose proof (reachable_Inv w Hr)
    as [_ _ _ _ _ _ _ _ Icancel Istored (c & _ & _ & Hcnt) _].
  pose proof (reachable_Inv2 w Hr) as [_ Jclosing Jctx _ _ _ _].
  pose proof (sumw_le _ _ (threads w) connClosed_le_cancelled).
  pose proof (sumw_le _ _ (threads w) cancelled_le_past262).
  split; [lia|]. intros Hone.
  destruct (closing (svc w)); [|lia].
  destruct (ctxDone w); [|lia].
  destruct (cancel (svc w)); [|lia].
  repeat split. discriminate.
Qed.

Lemma Close_signals_before_closing_witness :
  closing (svc (Sample.world Sample.closeTwice)) = true /\
  ctxDone (Sample.world Sample.closeTwice) = true /\
  cancel (svc (Sample.world Sample.closeTwice)) <> None.
Proof.
  destruct (Close_signals_before_closing (Sample.world Sample.closeTwice))
    as [_ Hsig].
  - apply (reachable_sample Sample.closeTwice). vm_compute. reflexivity.
  - apply Hsig. vm_compute. discriminate.
Defined.

(** X14: once a call of [Close] has called [s.cancel()], the goroutines
    of [listenTasks] are not blocked any more: the receive loop waiting
    in [Recv] can take the error of [Recv], give its one back to the
    counter and get to report nil (the closing flag is set), and the
    goroutine of lines 195-198 gets past line 196. *)
Theorem Close_unblocks_listenTasks w i pc :
  reachable w ->
  crashed w = false ->
  threads w !! i = Some (TClose pc) ->
  cancelled (TClose pc) = 1 ->
  (forall k m x1 x2,
      threads w !! k = Some (TRecv RRecv) ->
      run [Run k (ExtErr m); Run k x1; Run k x2] w
      = Some (goto k (TRecv (RSend None))
                (emit EvDoneRecv (with_svc (wgAdd (-1)) w)))) /\
  (forall k x,
      threads w !! k = Some (TWatch WDone) ->
      step (Run k x) w = Some (goto k (TWatch WSend) w)).
Proof.
  intros Hr Hcr Hi Hpc.
  pose proof (reachable_Inv2 w Hr) as [_ Jclosing Jctx _ _ _ _].
  pose proof (sumw_lookup_le cancelled _ i _ cancelled_nonneg Hi) as Hc.
  pose proof (sumw_le _ _ (threads w) cancelled_le_past262) as Hle.
  rewrite Hpc in Hc.
  assert (Hctx : ctxDone w = true) by (destruct (ctxDone w); [reflexivity|lia]).
  assert (Hcl : closing (svc w) = true)
    by (destruct (closing (svc w)); [reflexivity|lia]).
  split.
  - intros k m x1 x2 Hk.
    assert (Hlt : (k < length (threads w))%nat)
      by (eapply lookup_lt_Some; eassumption).
    assert (Herr : exists e, recvErr w = Some e).
    { unfold recvErr. rewrite Hctx. destruct (streamErr w); eauto. }
    destruct Herr as [e He].
    cbn [run]. rewrite (step_Run w k _ _ Hcr Hk). cbn [runThread recvLoop].
    rewrite He.
    erewrite step_Run; [|exact Hcr|apply list_lookup_insert_eq; exact Hlt].
    cbn [runThread recvLoop].
    erewrite step_Run;
      [|exact Hcr
       |cbn; apply list_lookup_insert_eq; rewrite length_insert; exact Hlt].
    cbn [runThread recvLoop]. cbn [closing svc emit goto with_svc set_threads
                                  wgAdd set_gracefulWait].
    rewrite Hcl. unfold goto, emit, with_svc, set_threads. cbn.
    rewrite !list_insert_insert_eq. reflexivity.
  - intros k x Hk. rewrite (step_Run w k _ _ Hcr Hk). cbn.
    unfold streamCtxDone. rewrite Hctx. reflexivity.
Qed.

Lemma Close_unblocks_listenTasks_witness :
  run [Run 2 (ExtErr ""); Run 2 ExtOk; Run 2 ExtOk]
    (Sample.world (Sample.receiving ++ Sample.closeCancels 3))
  = Some (goto 2 (TRecv (RSend None))
            (emit EvDoneRecv
               (with_svc (wgAdd (-1))
                  (Sample.world (Sample.receiving ++ Sample.closeCancels 3))))).
Proof.
  destruct (Close_unblocks_listenTasks
              (Sample.world (Sample.receiving ++ Sample.closeCancels 3)) 3 CWait)
    as [Hrecv _].
  - apply (reachable_sample (Sample.receiving ++ Sample.closeCancels 3)).
    vm_compute. reflexivity.
  - vm_compute. reflexivity.
  - vm_compute. reflexivity.
  - reflexivity.
  - apply Hrecv. vm_compute. reflexivity.
Defined.


(** ** [executeTask] on a task that is handled *)

(** A goroutine that moves twice has moved to where it is. *)
Lemma goto_goto j t t' w : goto j t (goto j t' w) = goto j t w.
Proof.
  unfold goto, set_threads. cbn. rewrite list_insert_insert_eq. reflexivity.
Qed.

Lemma goto_emit_goto j t t' e w :
  goto j t (emit e (goto j t' w)) = goto j t (emit e w).
Proof.
  unfold goto, emit, set_threads. cbn. rewrite list_insert_insert_eq.
  reflexivity.
Qed.

Lemma emit_goto_goto j t t' e w :
  emit e (goto j t (goto j t' w)) = goto j t (emit e w).
Proof.
  unfold goto, emit, set_threads. cbn. rewrite list_insert_insert_eq.
  reflexivity.
Qed.

Lemma goto_emit_svc_goto j t t' e f w :
  goto j t (emit e (with_svc f (goto j t' w)))
  = goto j t (emit e (with_svc f w)).
Proof.
  unfold goto, emit, with_svc, set_threads. cbn.
  rewrite list_insert_insert_eq. reflexivity.
Qed.

Lemma run_cons a acts w w1 :
  step a w = Some w1 -> run (a :: acts) w = run acts w1.
Proof. intros H. cbn. rewrite H. reflexivity. Qed.

(** The next statement of goroutine [j], which has just moved to [t]. *)
Lemma step_moved w j t0 t x :
  crashed w = false -> threads w !! j = Some t0 ->
  step (Run j x) (goto j t w) = runThread j t x (goto j t w).
Proof.
  intros Hcr Hj. apply step_Run; [exact Hcr|].
  apply list_lookup_insert_eq. eapply lookup_lt_Some; eassumption.
Qed.

Lemma step_moved_emit w j t0 t e x :
  crashed w = false -> threads w !! j = Some t0 ->
  step (Run j x) (goto j t (emit e w)) = runThread j t x (goto j t (emit e w)).
Proof.
  intros Hcr Hj. apply step_Run; [exact Hcr|].
  apply list_lookup_insert_eq. eapply lookup_lt_Some; eassumption.
Qed.

Lemma step_moved_emit_svc w j t0 t e f x :
  crashed w = false -> threads w !! j = Some t0 ->
  step (Run j x) (goto j t (emit e (with_svc f w)))
  = runThread j t x (goto j t (emit e (with_svc f w))).
Proof.
  intros Hcr Hj. apply step_Run; [exact Hcr|].
  apply list_lookup_insert_eq. eapply lookup_lt_Some; eassumption.
Qed.

(** X15: an execution for a task key that a taskable has executes the
    first such taskable.  When it returns and the reply is delivered,
    the reply carries the output of the taskable and the deferred [Done]
    follows; when the reply fails, its error is logged, nothing is
    delivered and nothing is retried, and the deferred [Done] follows as
    well.  In both cases the counter goes down by one and nothing else
    of the service changes. *)
Theorem handled_task_replies_or_logs w j data taskable outputKey out :
  crashed w = false ->
  threads w !! j = Some (TExec (EStart data)) ->
  getTaskableByName (taskables (svc w)) (TaskKey data) = Some taskable ->
  Execute taskable data = HReturn outputKey out ->
  (forall x1 x2 x3,
      run [Run j x1; Run j x2; Run j ExtOk; Run j x3] w
      = Some (goto j (TExec (EFinished data))
                (emit (EvDoneExec data)
                   (with_svc (wgAdd (-1))
                      (emit (EvReply data outputKey out) w))))) /\
  (forall x1 x2 msg x3 x4,
      run [Run j x1; Run j x2; Run j (ExtErr msg); Run j x3; Run j x4] w
      = Some (goto j (TExec (EFinished data))
                (emit (EvDoneExec data)
                   (with_svc (wgAdd (-1))
                      (emit (EvLog (errExternal msg)) w))))).
Proof.
  intros Hcr Hj Hfound Hexec.
  assert (H1 : forall x, step (Run j x) w
                         = Some (goto j (TExec (EExecute data taskable)) w)).
  { intros x. rewrite (step_Run w j _ _ Hcr Hj). cbn [runThread executeTask].
    rewrite Hfound. reflexivity. }
  assert (H2 : forall x, step (Run j x) (goto j (TExec (EExecute data taskable)) w)
                         = Some (goto j (TExec (EReply data outputKey out)) w)).
  { intros x. rewrite (step_moved w j _ _ x Hcr Hj).
    cbn [runThread executeTask]. rewrite Hexec, goto_goto. reflexivity. }
  assert (H5 : forall x e,
             step (Run j x) (goto j (TExec (EDone data false)) (emit e w))
             = Some (goto j (TExec (EFinished data))
                       (emit (EvDoneExec data) (with_svc (wgAdd (-1)) (emit e w))))).
  { intros x e. rewrite (step_moved_emit w j _ _ e x Hcr Hj).
    cbn [runThread executeTask]. rewrite goto_emit_svc_goto. reflexivity. }
  split.
  - intros x1 x2 x3.
    rewrite (run_cons _ _ _ _ (H1 x1)), (run_cons _ _ _ _ (H2 x2)).
    erewrite run_cons.
    2:{ rewrite (step_moved w j _ _ _ Hcr Hj). cbn [runThread executeTask reply].
        apply (f_equal Some), goto_emit_goto. }
    rewrite (run_cons _ _ _ _ (H5 x3 _)). reflexivity.
  - intros x1 x2 msg x3 x4.
    rewrite (run_cons _ _ _ _ (H1 x1)), (run_cons _ _ _ _ (H2 x2)).
    erewrite run_cons.
    2:{ rewrite (step_moved w j _ _ _ Hcr Hj). cbn [runThread executeTask reply].
        apply (f_equal Some), goto_goto. }
    erewrite run_cons.
    2:{ rewrite (step_moved w j _ _ _ Hcr Hj). cbn [runThread executeTask].
        apply (f_equal Some), emit_goto_goto. }
    rewrite (run_cons _ _ _ _ (H5 x4 _)). reflexivity.
Qed.

Lemma handled_task_replies_or_logs_witness :
  run [Run 3 ExtOk; Run 3 ExtOk; Run 3 (ExtErr "deadline exceeded");
       Run 3 ExtOk; Run 3 ExtOk]
    (Sample.world Sample.closeWhileExecuting)
  = Some (goto 3 (TExec (EFinished Sample.sumRequest))
            (emit (EvDoneExec Sample.sumRequest)
               (with_svc (wgAdd (-1))
                  (emit (EvLog (errExternal "deadline exceeded"))
                     (Sample.world Sample.closeWhileExecuting))))).
Proof.
  destruct (handled_task_replies_or_logs
              (Sample.world Sample.closeWhileExecuting) 3 Sample.sumRequest
              Sample.sum "result" "5")
    as [_ Hlog].
  - vm_compute. reflexivity.
  - vm_compute. reflexivity.
  - vm_compute. reflexivity.
  - reflexivity.
  - apply Hlog.
Defined.

(** X16: a taskable that panics takes the process down, and the counter
    is given back first: the execution runs the deferred [Done], no
    reply is made and nothing is logged, and then, the panic not being
    recovered anywhere, no goroutine runs any more and no call is
    accepted. *)
Theorem handler_panic_ends_process w j data taskable :
  crashed w = false ->
  threads w !! j = Some (TExec (EStart data)) ->
  getTaskableByName (taskables (svc w)) (TaskKey data) = Some taskable ->
  Execute taskable data = HPanic ->
  forall x1 x2 x3,
  exists w',
    run [Run j x1; Run j x2; Run j x3] w = Some w' /\
    trace w' = EvDoneExec data :: trace w /\
    gracefulWait (svc w') = gracefulWait (svc w) - 1 /\
    threads w' !! j = Some (TExec (EPanicked data)) /\
    forall a, step a w' = None.
Proof.
  intros Hcr Hj Hfound Hexec x1 x2 x3.
  assert (Hlt : (j < length (threads w))%nat)
    by (eapply lookup_lt_Some; eassumption).
  eexists. split.
  - cbn [run].
    rewrite (step_Run w j _ _ Hcr Hj). cbn [runThread executeTask].
    rewrite Hfound.
    erewrite step_Run; [|exact Hcr|apply list_lookup_insert_eq; exact Hlt].
    cbn [runThread executeTask]. rewrite Hexec.
    erewrite step_Run;
      [|exact Hcr
       |cbn; apply list_lookup_insert_eq; rewrite length_insert; exact Hlt].
    cbn [runThread executeTask]. reflexivity.
  - cbn. repeat split; try lia.
    apply list_lookup_insert_eq. rewrite !length_insert. exact Hlt.
Qed.

Lemma handler_panic_ends_process_witness :
  exists w',
    run (CallListen (mkTaskable "sum" (fun _ => HPanic)) []
         :: Sample.runs 0 12
         ++ [Run 2 ExtOk; ServerSend Sample.sumRequest; Run 2 ExtOk; Run 2 ExtOk]
         ++ Sample.runs 3 3)
      (boot Sample.service) = Some w' /\
    forall a, step a w' = None.
Proof.
  destruct (handler_panic_ends_process
              (Sample.world
                 (CallListen (mkTaskable "sum" (fun _ => HPanic)) []
                  :: Sample.runs 0 12
                  ++ [Run 2 ExtOk; ServerSend Sample.sumRequest;
                      Run 2 ExtOk; Run 2 ExtOk]))
              3 Sample.sumRequest (mkTaskable "sum" (fun _ => HPanic))
              ltac:(vm_compute; reflexivity) ltac:(vm_compute; reflexivity)
              ltac:(vm_compute; reflexivity) ltac:(reflexivity)
              ExtOk ExtOk ExtOk)
    as (w' & Hrun & _ & _ & _ & Hdead).
  exists w'. split; [|exact Hdead].
  rewrite app_comm_cons, app_assoc, run_app.
  replace (run _ (boot Sample.service))
    with (Some (Sample.world
                  (CallListen (mkTaskable "sum" (fun _ => HPanic)) []
                   :: Sample.runs 0 12
                   ++ [Run 2 ExtOk; ServerSend Sample.sumRequest;
                       Run 2 ExtOk; Run 2 ExtOk])))
    by (vm_compute; reflexivity).
  exact Hrun.
Defined.

(** ** The stream ends *)

(** X17: when the stream ends with an error and [Close] was not called,
    the receive loop waiting in [Recv] takes the error, gives its one
    back to the counter and sends the error on [errC]; with [Listen]
    waiting at line 216 and the loop the first to send, [Listen] returns
    the error of the stream. *)
Theorem stream_error_is_returned w k l e m x1 x2 x3 :
  reachable w ->
  crashed w = false ->
  threads w !! k = Some (TRecv RRecv) ->
  threads w !! l = Some (TListen (LListenTasks TRecvErrC)) ->
  recvErr w = Some e ->
  closing (svc w) = false ->
  run [Run k (ExtErr m); Run k x1; Run k x2; Run k x3] w
  = Some (emit (EvErrC (Some e))
            (goto l (TListen (LReturned AtErrC (Some e)))
               (goto k (TRecv RExit)
                  (emit EvDoneRecv (with_svc (wgAdd (-1)) w))))).
Proof.
  intros Hr Hcr Hk Hl He Hcl.
  pose proof (reachable_Inv w Hr)
    as [_ _ _ _ _ _ Igate _ _ _ _ _].
  assert (Hlt : (k < length (threads w))%nat)
    by (eapply lookup_lt_Some; eassumption).
  assert (Hne : k <> l) by congruence.
  assert (Hopen : sumw l_open (threads w) <= 1).
  { pose proof (sumw_nonneg _ (threads w) l_early_nonneg).
    pose proof (sumw_nonneg _ (threads w) l_errc_nonneg).
    destruct (isListening (svc w)); lia. }
  erewrite run_cons.
  2:{ rewrite (step_Run w k _ _ Hcr Hk). cbn [runThread recvLoop].
      rewrite He. reflexivity. }
  erewrite run_cons.
  2:{ rewrite (step_moved w k _ _ _ Hcr Hk). cbn [runThread recvLoop].
      apply (f_equal Some), goto_emit_svc_goto. }
  erewrite run_cons.
  2:{ rewrite (step_moved_emit_svc w k _ _ _ _ _ Hcr Hk).
      cbn [runThread recvLoop].
      change (closing (svc (goto k (TRecv (RIfClosing e))
                              (emit EvDoneRecv (with_svc (wgAdd (-1)) w)))))
        with (closing (svc w)).
      rewrite Hcl, goto_goto. reflexivity. }
  erewrite run_cons.
  2:{ rewrite (step_moved_emit_svc w k _ _ _ _ _ Hcr Hk).
      cbn [runThread recvLoop]. unfold sendErrC.
      change (threads (goto k (TRecv (RSend (Some e)))
                         (emit EvDoneRecv (with_svc (wgAdd (-1)) w))))
        with (<[k:=TRecv (RSend (Some e))]> (threads w)).
      rewrite (receiver_unique _ l).
      - rewrite goto_goto. reflexivity.
      - rewrite (sumw_insert _ _ _ _ _ Hk). cbn. lia.
      - rewrite list_lookup_insert_ne by exact Hne. exact Hl. }
  reflexivity.
Qed.

Lemma stream_error_is_returned_witness :
  exists w',
    run [Run 2 (ExtErr ""); Run 2 ExtOk; Run 2 ExtOk; Run 2 ExtOk]
      (Sample.world (Sample.receiving ++ [StreamFail "EOF"])) = Some w' /\
    threads w' !! 0%nat
    = Some (TListen (LReturned AtErrC (Some (errExternal "EOF")))).
Proof.
  eexists. split.
  - apply (stream_error_is_returned
             (Sample.world (Sample.receiving ++ [StreamFail "EOF"]))
             2 0 (errExternal "EOF")).
    + apply (reachable_sample (Sample.receiving ++ [StreamFail "EOF"])).
      vm_compute. reflexivity.
    + vm_compute. reflexivity.
    + vm_compute. reflexivity.
    + vm_compute. reflexivity.
    + vm_compute. reflexivity.
    + vm_compute. reflexivity.
  - vm_compute. reflexivity.
Defined.

(** ** The order of the requests *)

Lemma holding_app l1 l2 : holding (l1 ++ l2) = holding l1 ++ holding l2.
Proof.
  induction l1 as [|t l1 IH]; cbn; [reflexivity|].
  rewrite IH, app_assoc. reflexivity.
Qed.

Lemma holding_insert_same (l : list Thread) i t t' :
  l !! i = Some t -> hold1 t = [] -> hold1 t' = [] ->
  holding (<[i:=t']> l) = holding l.
Proof.
  revert i. induction l as [|a l IH]; intros [|i] Hi Ht Ht'; cbn in *;
    try discriminate.
  - inversion Hi; subst. rewrite Ht, Ht'. reflexivity.
  - f_equal. exact (IH i Hi Ht Ht').
Qed.

Lemma holding_none l :
  sumw recv_active l + sumw recv_over l <= 0 -> holding l = [].
Proof.
  induction l as [|t l IH]; cbn; [reflexivity|]. intros H.
  pose proof (sumw_nonneg _ l recv_active_nonneg).
  pose proof (sumw_nonneg _ l recv_over_nonneg).
  pose proof (recv_active_nonneg t). pose proof (recv_over_nonneg t).
  rewrite IH by lia.
  destruct t as [| |pc| |]; try reflexivity. destruct pc; cbn in H; lia.
Qed.

(** With one receive loop, what is held is what that loop holds. *)
Lemma holding_one (l : list Thread) i pc t' :
  sumw recv_active l + sumw recv_over l <= 1 ->
  l !! i = Some (TRecv pc) ->
  holding l = hold1 (TRecv pc) /\ holding (<[i:=t']> l) = hold1 t'.
Proof.
  revert i. induction l as [|a l IH]; intros [|i] Hle Hi; cbn in *;
    try discriminate.
  - inversion Hi; subst.
    assert (Hrest : holding l = []).
    { apply holding_none.
      assert (recv_active (TRecv pc) + recv_over (TRecv pc) = 1)
        by (destruct pc; reflexivity).
      lia. }
    rewrite Hrest, !app_nil_r. split; reflexivity.
  - pose proof (sumw_lookup_le recv_active _ i _ recv_active_nonneg Hi).
    pose proof (sumw_lookup_le recv_over _ i _ recv_over_nonneg Hi).
    pose proof (sumw_nonneg _ l recv_active_nonneg).
    pose proof (sumw_nonneg _ l recv_over_nonneg).
    pose proof (recv_active_nonneg a). pose proof (recv_over_nonneg a).
    assert (Hpc : recv_active (TRecv pc) + recv_over (TRecv pc) = 1)
      by (destruct pc; reflexivity).
    assert (Ha : hold1 a = []).
    { destruct a as [| |pca| |]; try reflexivity.
      destruct pca; cbn in *; lia. }
    rewrite Ha. cbn [app]. apply IH; [lia|exact Hi].
Qed.

(** A step adds to the requests of the stream what the server sends in
    it, at the end, and changes nothing else of them. *)
Lemma requests_step a w w' :
  Inv w -> step a w = Some w' -> requests w' = requests w ++ sent [a].
Proof.
  intros I H. revert I. unfold requests. step_cases H;
    intros [_ _ _ _ _ _ Igate _ _ _ _ _];
    cbn [threads svc trace emit goto spawn with_svc set_threads set_inbox
         set_ctxDone set_streamErr set_crashed inbox sent dispatched];
    rewrite ?app_nil_r;
    try reflexivity;
    try (rewrite insert_app_l by (eapply lookup_lt_Some; eassumption));
    rewrite ?holding_app; cbn [holding hold1]; rewrite ?app_nil_r;
    try match goal with
        | Hr : threads ?w0 !! ?n = Some (TListen (LListenTasks TRecvErrC)),
          Hi : threads ?w0 !! ?i = Some _
          |- context [holding (<[?n:=?b]> (<[?i:=?a]> (threads ?w0)))] =>
            rewrite (holding_insert_same (<[i:=a]> (threads w0)) n
                       (TListen (LListenTasks TRecvErrC)) b)
              by (first [ rewrite list_lookup_insert_ne by congruence;
                          exact Hr
                        | reflexivity ])
        end;
    try match goal with
        | Hi : threads ?w0 !! ?i = Some (TRecv ?pc)
          |- context [holding (<[?i:=?t']> (threads ?w0))] =>
            let Hh := fresh "Hh" in
            let Hh' := fresh "Hh" in
            destruct (holding_one (threads w0) i pc t') as [Hh Hh'];
            [ pose proof (sumw_nonneg _ (threads w0) spawner_nonneg);
              destruct (isListening (svc w0)); lia
            | exact Hi
            | rewrite Hh, Hh' ]
        end;
    try (erewrite holding_insert_same by (eassumption || reflexivity));
    cbn [hold1 rev app]; rewrite <- ?app_assoc; try reflexivity.
Qed.

Lemma sent_cons a acts : sent (a :: acts) = sent [a] ++ sent acts.
Proof. destruct a; reflexivity. Qed.

Lemma requests_run acts : forall w w',
  Inv w -> run acts w = Some w' -> requests w' = requests w ++ sent acts.
Proof.
  induction acts as [|a acts IH]; intros w w' I H; cbn [run] in H.
  - inversion H; subst. cbn. rewrite app_nil_r. reflexivity.
  - destruct (step a w) as [w1|] eqn:Hs; [|discriminate].
    rewrite (IH w1 w' (Inv_step _ _ _ Hs I) H), (requests_step a w w1 I Hs).
    rewrite (sent_cons a acts), app_assoc. reflexivity.
Qed.

(** X18: the requests are dispatched in the order the server sent them,
    each at most once and none skipped: at any time the requests
    dispatched so far (oldest first), then the one the receive loop has
    received and not handed over yet, then those still in the stream,
    are exactly the requests the server has sent, in order. *)
Theorem requests_in_order s acts w :
  fresh s ->
  run acts (boot s) = Some w ->
  rev (dispatched (trace w)) ++ holding (threads w) ++ inbox w = sent acts.
Proof.
  intros Hs Hrun.
  exact (requests_run acts (boot s) w (Inv_boot s Hs) Hrun).
Qed.

Lemma requests_in_order_witness :
  rev (dispatched (trace (Sample.world Sample.unknownTask)))
  ++ holding (threads (Sample.world Sample.unknownTask))
  ++ inbox (Sample.world Sample.unknownTask)
  = [Sample.fooRequest; Sample.sumRequest].
Proof.
  apply (requests_in_order Sample.service Sample.unknownTask).
  - apply fresh_sample.
  - vm_compute. reflexivity.
Defined.

(** ** [Listen] and [Close] together *)

(** X19: on a service fresh from [New], a call of [Listen] whose stream
    opens runs without blocking up to line 216, where it waits: by then
    the flag is set, the taskables are stored with the variadic ones
    first, [s.cancel] is stored, both mutexes are free again, and the
    two goroutines of [listenTasks] are started and have run nothing
    yet. *)
Theorem Listen_starts s task tasks :
  fresh s ->
  run (CallListen task tasks :: Sample.runs 0 12) (boot s)
  = Some {| svc := set_taskables (tasks ++ [task])
                     (set_cancel (Some CancelStream)
                        (set_isListening true s));
            ctxDone := false; inbox := []; streamErr := None;
            threads := [TListen (LListenTasks TRecvErrC); TWatch WDone;
                        TRecv RAdd];
            trace := []; crashed := false |}.
Proof.
  intros (Hc & Hcl & Hmc & Hl & Hml & Hg & c & Hconn & Hcalls).
  destruct s as [e t cl cn d ct ca clo m il l g ts lo].
  cbn [cancel closing mc isListening ml gracefulWait conn] in *.
  subst. vm_compute. reflexivity.
Qed.

Lemma Listen_starts_witness :
  run Sample.listening (boot Sample.service)
  = Some {| svc := set_taskables [Sample.sum]
                     (set_cancel (Some CancelStream)
                        (set_isListening true Sample.service));
            ctxDone := false; inbox := []; streamErr := None;
            threads := [TListen (LListenTasks TRecvErrC); TWatch WDone;
                        TRecv RAdd];
            trace := []; crashed := false |}.
Proof.
  exact (Listen_starts Sample.service Sample.sum [] fresh_sample).
Defined.

(** X20: a graceful shutdown can go through.  On a service fresh from
    [New], [Listen] is called and waits with its receive loop blocked in
    [Recv]; [Close] is called and cancels; the receive loop takes the
    error of [Recv] and reports nil first.  Then [Listen] returns nil,
    [Close] gets past [Wait], closes the connection once and returns
    what closing returned, nil; the counter is back at zero and both
    mutexes are free. *)
Theorem graceful_shutdown s task tasks :
  fresh s ->
  exists w,
    run (CallListen task tasks :: Sample.runs 0 12
         ++ [Run 2 ExtOk] ++ Sample.closeCancels 3
         ++ [Run 2 (ExtErr "")] ++ Sample.runs 2 3 ++ Sample.runs 3 3)
      (boot s) = Some w /\
    threads w
    = [TListen (LReturned AtErrC None); TWatch WDone; TRecv RExit;
       TClose (CReturned None)] /\
    trace w = [EvConnClose None; EvErrC None; EvDoneRecv; EvCancel; EvAdd] /\
    gracefulWait (svc w) = 0 /\ mc (svc w) = false /\ ml (svc w) = false /\
    closing (svc w) = true /\
    exists c, conn (svc w) = Some c /\ closeCalls c = 1%nat.
Proof.
  intros (Hc & Hcl & Hmc & Hl & Hml & Hg & c & Hconn & Hcalls).
  destruct s as [e t cl cn d ct ca clo m il l g ts lo].
  destruct c as [tg calls].
  cbn [cancel closing mc isListening ml gracefulWait conn closeCalls] in *.
  subst. eexists. split; [vm_compute; reflexivity|].
  vm_compute. repeat split. eexists. split; reflexivity.
Qed.

Lemma graceful_shutdown_witness :
  exists w,
    run (CallListen Sample.sum [] :: Sample.runs 0 12
         ++ [Run 2 ExtOk] ++ Sample.closeCancels 3
         ++ [Run 2 (ExtErr "")] ++ Sample.runs 2 3 ++ Sample.runs 3 3)
      (boot Sample.service) = Some w /\
    threads w
    = [TListen (LReturned AtErrC None); TWatch WDone; TRecv RExit;
       TClose (CReturned None)].
Proof.
  destruct (graceful_shutdown Sample.service Sample.sum [] fresh_sample)
    as (w & Hrun & Hthreads & _).
  exists w. split; [exact Hrun|exact Hthreads].
Defined.
